(** * jujusvg: icon fetchers (iconfetcher.go)

  A shallow embedding of [LinkFetcher] and [HTTPFetcher] and of the
  properties of their [FetchIcons] methods.

  - Go maps ([map[string]bool], [map[string][]byte]) are stdpp [gmap]s.
  - A Go return pair [(map, error)] is a pair of options, [None] being
    Go's [nil].
  - [LinkFetcher.FetchIcons] is sequential and is a recursive function
    over the services visited by the [range] loop.
  - [HTTPFetcher.FetchIcons] starts goroutines; it is a transition
    system whose actions are the atomic steps of the calling goroutine
    and of the fetch tasks, run by an explicit schedule. *)

From Stdlib Require Import ZArith Lia.
From Stdlib.Strings Require Import Byte Ascii String.
From stdpp Require Import base option list gmap strings sorting.

Open Scope Z_scope.

(** ** Bytes and strings *)

Abbreviation bytes := (list Byte.byte).

Definition dquote : string := String (Ascii.ascii_of_nat 34) EmptyString.
Definition newline : string := String (Ascii.ascii_of_nat 10) EmptyString.
Definition tab : string := String (Ascii.ascii_of_nat 9) EmptyString.

(** ** Errors

  [errgo.Notef] and [errgo.Newf] build an error from a format and its
  arguments; [Notef] also keeps the underlying error.  The message is
  kept as format and arguments.  Errors made by collaborators (the charm
  parser, the HTTP client, a body reader) are [foreign]. *)

Inductive error : Type :=
| foreign (text : string)
| errgo_Notef (underlying : error) (format : string) (args : list fmt_arg)
| errgo_Newf (format : string) (args : list fmt_arg)
with fmt_arg : Type :=
| arg_string (s : string)
| arg_error (e : error).

Inductive result (A : Type) : Type :=
| ok (a : A)
| fail (err : error).
Arguments ok {A} a.
Arguments fail {A} err.

(** ** escapeString *)

Module xml.

(** Modelled from the spec: [xml.EscapeText] of github.com/juju/xml is
    not under src/.  The spec asks for the format's standard text
    escaping of the reserved characters; each reserved byte is replaced
    by its XML character or entity reference, every other byte is
    copied. *)
Definition escape_byte (b : Byte.byte) : bytes :=
  match b with
  | Byte.x22 => list_byte_of_string "&#34;"
  | Byte.x27 => list_byte_of_string "&#39;"
  | Byte.x26 => list_byte_of_string "&amp;"
  | Byte.x3c => list_byte_of_string "&lt;"
  | Byte.x3e => list_byte_of_string "&gt;"
  | Byte.x09 => list_byte_of_string "&#x9;"
  | Byte.x0a => list_byte_of_string "&#xA;"
  | Byte.x0d => list_byte_of_string "&#xD;"
  | _ => [b]
  end.

Fixpoint EscapeText (s : bytes) : bytes :=
  match s with
  | [] => []
  | b :: s' => escape_byte b ++ EscapeText s'
  end.

(** The bytes that end or open markup: less-than, double quote,
    greater-than, apostrophe. *)
Definition reserved (c : Byte.byte) : Prop :=
  c = Byte.x3c \/ c = Byte.x22 \/ c = Byte.x3e \/ c = Byte.x27.

(** The inverse reading of the references [EscapeText] writes. *)
Fixpoint UnescapeText (fuel : nat) (s : bytes) : bytes :=
  match fuel with
  | O => []
  | S fuel =>
    match s with
    | [] => []
    | Byte.x26 :: Byte.x23 :: Byte.x33 :: Byte.x34 :: Byte.x3b :: s' =>
        Byte.x22 :: UnescapeText fuel s'
    | Byte.x26 :: Byte.x23 :: Byte.x33 :: Byte.x39 :: Byte.x3b :: s' =>
        Byte.x27 :: UnescapeText fuel s'
    | Byte.x26 :: Byte.x61 :: Byte.x6d :: Byte.x70 :: Byte.x3b :: s' =>
        Byte.x26 :: UnescapeText fuel s'
    | Byte.x26 :: Byte.x6c :: Byte.x74 :: Byte.x3b :: s' =>
        Byte.x3c :: UnescapeText fuel s'
    | Byte.x26 :: Byte.x67 :: Byte.x74 :: Byte.x3b :: s' =>
        Byte.x3e :: UnescapeText fuel s'
    | Byte.x26 :: Byte.x23 :: Byte.x78 :: Byte.x39 :: Byte.x3b :: s' =>
        Byte.x09 :: UnescapeText fuel s'
    | Byte.x26 :: Byte.x23 :: Byte.x78 :: Byte.x41 :: Byte.x3b :: s' =>
        Byte.x0a :: UnescapeText fuel s'
    | Byte.x26 :: Byte.x23 :: Byte.x78 :: Byte.x44 :: Byte.x3b :: s' =>
        Byte.x0d :: UnescapeText fuel s'
    | b :: s' => b :: UnescapeText fuel s'
    end
  end.

End xml.

(** Wrap around xml.EscapeText to make it more string-friendly. *)
Definition escapeString (s : string) : string :=
string_of_list_byte (xml.EscapeText (list_byte_of_string s)).

(** The raw string literal handed to [fmt.Sprintf] in
  [LinkFetcher.FetchIcons], cut at its single [%s] verb. *)
Definition svg_before : string :=
newline +:+ tab +:+ tab +:+ tab +:+ tab
+:+ "<svg xmlns:xlink=" +:+ dquote +:+ "http://www.w3.org/1999/xlink"
+:+ dquote +:+ ">" +:+ newline
+:+ tab +:+ tab +:+ tab +:+ tab +:+ tab
+:+ "<image width=" +:+ dquote +:+ "96" +:+ dquote
+:+ " height=" +:+ dquote +:+ "96" +:+ dquote
+:+ " xlink:href=" +:+ dquote.

Definition svg_after : string :=
dquote +:+ " />" +:+ newline
+:+ tab +:+ tab +:+ tab +:+ tab +:+ "</svg>".

Definition svg_link (href : string) : bytes :=
list_byte_of_string (svg_before +:+ href +:+ svg_after).

(** ** The HTTP collaborator

  [resp.Body] is given by what [ioutil.ReadAll] makes of it: the bytes
  read and the error that stopped the read, if any.  The reply of
  [client.Get] may depend on the URLs requested before. *)

Record ReadCloser := {
content : bytes;
read_error : option error;
}.

Definition ioutil_ReadAll (r : ReadCloser) : bytes * option error :=
(content r, read_error r).

Record http_Response := {
Status : string;
StatusCode : Z;
Body : ReadCloser;
}.

Definition http_StatusOK : Z := 200.

Record http_Client := {
Get : list string -> string -> result http_Response;
}.

(** ** The bundle

  [b.Services] is a Go map; the list holds its values in the order in
  which the [range] loop of one call visits them. *)

Record ServiceData := { Charm : string }.

Record BundleData := { Services : list ServiceData }.

(** ** The bounded parallel runner *)

Module parallel.

(** Modelled from the spec: the Bounded Parallel Runner
    (github.com/juju/utils/parallel) is not under src/.  It holds the
    tasks submitted and not yet completed, at most [limit] of them, and
    the errors of the tasks that failed, oldest first. *)
Record Run (T : Type) := {
  limit : Z;
  active : list T;
  failed : list error;
}.
Arguments limit {T} r.
Arguments active {T} r.
Arguments failed {T} r.

Definition NewRun {T} (maxParallel : Z) : Run T :=
  {| limit := maxParallel; active := []; failed := [] |}.

(** [Do] blocks while the cap is saturated: it has no result then. *)
Definition Do {T} (r : Run T) (task : T) : option (Run T) :=
  if Z.of_nat (length (active r)) <? limit r
  then Some {| limit := limit r; active := active r ++ [task];
               failed := failed r |}
  else None.

(** A task that ran to completion frees its slot and reports its error. *)
Definition complete {T} (r : Run T) (i : nat) (err : option error) : Run T :=
  {| limit := limit r; active := delete i (active r);
     failed := failed r ++ option_list err |}.

(** The runner keeps a task in place while it runs. *)
Definition update {T} (r : Run T) (i : nat) (task : T) : Run T :=
  {| limit := limit r; active := <[i := task]> (active r);
     failed := failed r |}.

(** [Wait] blocks until every submitted task has completed, then gives
    the first error encountered. *)
Definition Wait {T} (r : Run T) : option (option error) :=
  match active r with
  | [] => Some (head (failed r))
  | _ :: _ => None
  end.

End parallel.

Section Fetchers.

(** The charm collaborator: [charm.Reference], [charm.ParseReference]
    and the method [Reference.Path]. *)
Context {Reference : Type}.
Variable ParseReference : string -> result Reference.
Variable Path : Reference -> string.

Variable http_DefaultClient : http_Client.

(** *** LinkFetcher *)

Record LinkFetcher := {
  link_IconURL : Reference -> string;
}.

(** The [range] loop of [LinkFetcher.FetchIcons]. *)
Fixpoint LinkFetcher_range (l : LinkFetcher) (services : list ServiceData)
    (alreadyFetched : gmap string bool) (icons : gmap string bytes)
    : option (gmap string bytes) * option error :=
  match services with
  | [] => (Some icons, None)
  | serviceData :: services =>
    match ParseReference (Charm serviceData) with
    | fail err =>
        (None, Some (errgo_Notef err "cannot parse charm %q"
                       [arg_string (Charm serviceData)]))
    | ok charmId =>
        let path := Path charmId in
        if negb (default false (alreadyFetched !! path)) then
          LinkFetcher_range l services
            (<[path := true]> alreadyFetched)
            (<[path := svg_link (escapeString (link_IconURL l charmId))]>
               icons)
        else LinkFetcher_range l services alreadyFetched icons
    end
  end.

Definition LinkFetcher_FetchIcons (l : LinkFetcher) (b : BundleData)
    : option (gmap string bytes) * option error :=
  LinkFetcher_range l (Services b) ∅ ∅.

(** *** HTTPFetcher *)

Record HTTPFetcher := {
  Concurrency : Z;
  IconURL : Reference -> string;
  Client : option http_Client;
}.

(** fetchIcon retrieves a single icon svg over HTTP; [earlier] are the
    URLs the client was asked for before. *)
Definition fetchIcon (h : HTTPFetcher) (url : string) (client : http_Client)
    (earlier : list string) : option bytes * option error :=
  match Get client earlier url with
  | fail err =>
      (None, Some (errgo_Notef err "HTTP error fetching %s: %v"
                     [arg_string url; arg_error err]))
  | ok resp =>
      if negb (StatusCode resp =? http_StatusOK) then
        (None, Some (errgo_Newf "cannot retrieve icon from %s: %s"
                       [arg_string url; arg_string (Status resp)]))
      else
        match ioutil_ReadAll (Body resp) with
        | (_, Some err) =>
            (None, Some (errgo_Notef err
                           "could not read icon data from url %s"
                           [arg_string url]))
        | (body, None) => (Some body, None)
        end
  end.

(** The call-local [client] and [concurrency] of [FetchIcons]. *)
Definition local_client (h : HTTPFetcher) : http_Client :=
  match Client h with
  | Some c => c
  | None => http_DefaultClient
  end.

Definition local_concurrency (h : HTTPFetcher) : Z :=
  if Concurrency h <=? 0 then 10 else Concurrency h.

(** A function handed to [run.Do]: the closure over [charmId] and
    [path], and where its goroutine stands: not yet in [fetchIcon], or
    in it with the outcome the network has for it. *)
Inductive Progress :=
| Spawned
| Fetching (outcome : option bytes * option error).

Record Task := {
  task_charmId : Reference;
  task_path : string;
  progress : Progress;
}.

(** Where the calling goroutine stands: in the [range] loop with the
    services still to visit (after them, in [run.Wait]), or returned. *)
Inductive Caller :=
| Ranging (services : list ServiceData)
| Returned (icons : option (gmap string bytes)) (err : option error).

(** The state of one call [h.FetchIcons(b)].  [submitted] and [fetched]
    are instruments: the charm ids handed to [run.Do] and those whose
    task has called [client.Get], oldest first. *)
Record Call := {
  receiver : HTTPFetcher;
  client : http_Client;
  concurrency : Z;
  icons : gmap string bytes;
  alreadyFetched : gmap string bool;
  run : parallel.Run Task;
  caller : Caller;
  submitted : list Reference;
  fetched : list Reference;
}.

(** The state at the head of the [range] loop (lines 85 to 96). *)
Definition HTTPFetcher_enter (h : HTTPFetcher) (b : BundleData) : Call :=
  let client := local_client h in
  let concurrency := local_concurrency h in
  {| receiver := h; client := client; concurrency := concurrency;
     icons := ∅; alreadyFetched := ∅;
     run := parallel.NewRun concurrency;
     caller := Ranging (Services b);
     submitted := []; fetched := [] |}.

Inductive Action :=
| caller_step           (* one iteration of the loop, or run.Wait and return *)
| task_fetch (i : nat)  (* the i-th active task enters fetchIcon *)
| task_finish (i : nat) (* the i-th active task leaves fetchIcon and ends *).

Definition requested (c : Call) : list string :=
  IconURL (receiver c) <$> fetched c.

(** One step of the calling goroutine (lines 97 to 121): the body of the
    [range] loop for the next service, or, the services done, [run.Wait]
    and the return.  The step is not enabled while [run.Do] or [run.Wait]
    blocks; the write to [alreadyFetched] just before a blocked [run.Do]
    is seen by no one else and is made with it. *)
Definition caller_next (c : Call) : option Call :=
  match caller c with
  | Returned _ _ => None
  | Ranging [] =>
      err ← parallel.Wait (run c);
      Some {| receiver := receiver c; client := client c;
              concurrency := concurrency c; icons := icons c;
              alreadyFetched := alreadyFetched c; run := run c;
              caller := match err with
                        | Some err => Returned None (Some err)
                        | None => Returned (Some (icons c)) None
                        end;
              submitted := submitted c; fetched := fetched c |}
  | Ranging (serviceData :: services) =>
      match ParseReference (Charm serviceData) with
      | fail err =>
          Some {| receiver := receiver c; client := client c;
                  concurrency := concurrency c; icons := icons c;
                  alreadyFetched := alreadyFetched c; run := run c;
                  caller := Returned None
                    (Some (errgo_Notef err "cannot parse charm %q"
                             [arg_string (Charm serviceData)]));
                  submitted := submitted c; fetched := fetched c |}
      | ok charmId =>
          let path := Path charmId in
          if default false (alreadyFetched c !! path) then
            Some {| receiver := receiver c; client := client c;
                    concurrency := concurrency c; icons := icons c;
                    alreadyFetched := alreadyFetched c; run := run c;
                    caller := Ranging services;
                    submitted := submitted c; fetched := fetched c |}
          else
            run' ← parallel.Do (run c)
                     {| task_charmId := charmId; task_path := path;
                        progress := Spawned |};
            Some {| receiver := receiver c; client := client c;
                    concurrency := concurrency c; icons := icons c;
                    alreadyFetched := <[path := true]> (alreadyFetched c);
                    run := run';
                    caller := Ranging services;
                    submitted := submitted c ++ [charmId];
                    fetched := fetched c |}
      end
  end.

(** The goroutine of the [i]-th active task calls [h.fetchIcon] (line
    108); the client is asked now, the outcome is held until the call
    returns. *)
Definition task_next_fetch (i : nat) (c : Call) : option Call :=
  t ← parallel.active (run c) !! i;
  match progress t with
  | Fetching _ => None
  | Spawned =>
      let h := receiver c in
      let outcome :=
        fetchIcon h (IconURL h (task_charmId t)) (client c) (requested c) in
      Some {| receiver := receiver c; client := client c;
              concurrency := concurrency c; icons := icons c;
              alreadyFetched := alreadyFetched c;
              run := parallel.update (run c) i
                       {| task_charmId := task_charmId t;
                          task_path := task_path t;
                          progress := Fetching outcome |};
              caller := caller c;
              submitted := submitted c;
              fetched := fetched c ++ [task_charmId t] |}
  end.

(** [h.fetchIcon] returns to the [i]-th active task (lines 109 to 115):
    on an error the task ends with it, otherwise it stores the icon
    under the lock; either way its slot is free again. *)
Definition task_next_finish (i : nat) (c : Call) : option Call :=
  t ← parallel.active (run c) !! i;
  match progress t with
  | Spawned => None
  | Fetching (_, Some err) =>
      Some {| receiver := receiver c; client := client c;
              concurrency := concurrency c; icons := icons c;
              alreadyFetched := alreadyFetched c;
              run := parallel.complete (run c) i (Some err);
              caller := caller c;
              submitted := submitted c; fetched := fetched c |}
  | Fetching (icon, None) =>
      Some {| receiver := receiver c; client := client c;
              concurrency := concurrency c;
              icons := <[task_path t := default [] icon]> (icons c);
              alreadyFetched := alreadyFetched c;
              run := parallel.complete (run c) i None;
              caller := caller c;
              submitted := submitted c; fetched := fetched c |}
  end.

Definition step (a : Action) (c : Call) : option Call :=
  match a with
  | caller_step => caller_next c
  | task_fetch i => task_next_fetch i c
  | task_finish i => task_next_finish i c
  end.

(** Running a schedule from a state; [None] when an action of the
    schedule is not enabled where it is asked for. *)
Fixpoint exec (schedule : list Action) (c : Call) : option Call :=
  match schedule with
  | [] => Some c
  | a :: schedule => c' ← step a c; exec schedule c'
  end.

Definition HTTPFetcher_FetchIcons (h : HTTPFetcher) (b : BundleData)
    (schedule : list Action) : option Call :=
  exec schedule (HTTPFetcher_enter h b).

(** *** Vocabulary of the properties *)

(** [services] parse to [refs], one reference per service. *)
Definition parses (services : list ServiceData) (refs : list Reference)
    : Prop :=
  Forall2 (fun s r => ParseReference (Charm s) = ok r) services refs.

(** The first reference of [refs] whose path is [p]. *)
Fixpoint first_with (p : string) (refs : list Reference)
    : option Reference :=
  match refs with
  | [] => None
  | r :: refs => if decide (Path r = p) then Some r else first_with p refs
  end.

(** The references of [refs] that are the first with their path, the
    paths of [seen] left out. *)
Fixpoint firsts (seen : gset string) (refs : list Reference)
    : list Reference :=
  match refs with
  | [] => []
  | r :: refs =>
      if decide (Path r ∈ seen) then firsts seen refs
      else r :: firsts ({[Path r]} ∪ seen) refs
  end.

Definition distinct (refs : list Reference) : list Reference :=
  firsts ∅ refs.

Definition paths (refs : list Reference) : list string := Path <$> refs.

(** The error [FetchIcons] makes of a charm that does not parse. *)
Definition parse_failure (serviceData : ServiceData) (err : error) : error :=
  errgo_Notef err "cannot parse charm %q" [arg_string (Charm serviceData)].

Definition is_spawned (t : Task) : bool :=
  match progress t with Spawned => true | Fetching _ => false end.

Definition is_fetching (t : Task) : bool :=
  match progress t with Spawned => false | Fetching _ => true end.

(** The tasks inside [fetchIcon], between its call and its return. *)
Definition in_flight (c : Call) : nat :=
  length (filter (fun t => is_fetching t = true) (parallel.active (run c))).

Definition spawned (c : Call) : list Reference :=
  task_charmId <$> filter (fun t => is_spawned t = true)
                     (parallel.active (run c)).

Definition has_returned (c : Call) : bool :=
  match caller c with Returned _ _ => true | Ranging _ => false end.

(** What is left to do: an upper bound on the steps to come. *)
Definition task_weight (t : Task) : nat :=
  match progress t with Spawned => 2%nat | Fetching _ => 1%nat end.

Definition measure (c : Call) : nat :=
  (match caller c with
   | Ranging services => 1 + 3 * length services
   | Returned _ _ => 0
   end + sum_list_with task_weight (parallel.active (run c)))%nat.

(** A sequential schedule: the caller moves when it can, otherwise the
    oldest active task does. *)
Definition pick (c : Call) : Action :=
  match caller_next c with
  | Some _ => caller_step
  | None =>
      match parallel.active (run c) with
      | t :: _ => if is_spawned t then task_fetch 0 else task_finish 0
      | [] => caller_step
      end
  end.

Fixpoint sequential (fuel : nat) (c : Call) : list Action :=
  match fuel with
  | O => []
  | S fuel =>
      if has_returned c then []
      else
        match step (pick c) c with
        | Some c' => pick c :: sequential fuel c'
        | None => []
        end
  end.

(** The failures of a fetch as the code has them: transport, a status
    other than 200, body read. *)
Definition fetch_failure (client : http_Client) (earlier : list string)
    (url : string) : Prop :=
  match Get client earlier url with
  | fail _ => True
  | ok resp =>
      StatusCode resp <> http_StatusOK \/ is_Some (read_error (Body resp))
  end.

Definition is_2xx (code : Z) : bool := (200 <=? code) && (code <? 300).

(** The failures of a fetch in the words of the specification:
    transport, a status that is not 2xx, body read. *)
Definition listed_failure (client : http_Client) (earlier : list string)
    (url : string) : Prop :=
  match Get client earlier url with
  | fail _ => True
  | ok resp =>
      is_2xx (StatusCode resp) = false \/ is_Some (read_error (Body resp))
  end.

(** *** Invariants of a call *)

(** The receiver and the locals stay what they were on entry. *)
Definition framed (h : HTTPFetcher) (c : Call) : Prop :=
  receiver c = h /\ client c = local_client h /\
  concurrency c = local_concurrency h /\
  parallel.limit (run c) = local_concurrency h.

(** The runner never holds more tasks than its limit. *)
Definition capped (c : Call) : Prop :=
  Z.of_nat (length (parallel.active (run c))) <= parallel.limit (run c).

(** How far the caller is, [visited] being the services it has been
    through: it is in the loop, or it returned on a charm that does not
    parse, or it returned from [run.Wait]. *)
Definition caller_at (b : BundleData) (c : Call)
    (visited : list ServiceData) : Prop :=
  match caller c with
  | Ranging rest => Services b = visited ++ rest
  | Returned m e =>
      (exists bad post err,
         Services b = visited ++ bad :: post /\
         ParseReference (Charm bad) = fail err /\
         m = None /\ e = Some (parse_failure bad err))
      \/ (Services b = visited /\ parallel.active (run c) = [] /\
          e = head (parallel.failed (run c)) /\
          m = match head (parallel.failed (run c)) with
              | Some _ => None
              | None => Some (icons c)
              end)
  end.

(** The tasks submitted are those of the first references, by path, of
    the services visited, and [alreadyFetched] holds their paths. *)
Definition scanned (b : BundleData) (c : Call) : Prop :=
  exists visited refs,
    parses visited refs /\ caller_at b c visited /\
    submitted c = distinct refs /\
    (forall p, default false (alreadyFetched c !! p) = true <->
               p ∈ paths refs).

(** Every task submitted is waiting to fetch or has fetched once; the
    icons are those of tasks submitted, and of all of them that have
    ended as long as none has failed. *)
Definition accounted (c : Call) : Prop :=
  fetched c ++ spawned c ≡ₚ submitted c /\
  Forall (fun t => task_path t = Path (task_charmId t) /\
                   task_charmId t ∈ submitted c)
    (parallel.active (run c)) /\
  (forall p, is_Some (icons c !! p) -> p ∈ paths (submitted c)) /\
  (parallel.failed (run c) = [] ->
   forall p, p ∈ paths (submitted c) ->
     is_Some (icons c !! p) \/
     p ∈ task_path <$> parallel.active (run c)).

(** A call on a bundle without services: nothing was submitted, and
    the caller is at the wait or has returned the empty map. *)
Definition idle (c : Call) : Prop :=
  icons c = ∅ /\ parallel.failed (run c) = [] /\
  parallel.active (run c) = [] /\ submitted c = [] /\ fetched c = [] /\
  (caller c = Ranging [] \/ caller c = Returned (Some ∅) None).

(** No task has failed, nor is one about to report a failure. *)
Definition all_served (c : Call) : Prop :=
  parallel.failed (run c) = [] /\
  Forall (fun t => forall icon err, progress t <> Fetching (icon, Some err))
    (parallel.active (run c)).

(** *** Vocabulary of the further properties *)

(** A client whose reply to a URL does not depend on the requests made
    before. *)
Definition stateless (cl : http_Client) : Prop :=
  forall earlier earlier' url, Get cl earlier url = Get cl earlier' url.

(** [IconURL] gives one URL to the references of [refs] with one path. *)
Definition by_path (url : Reference -> string) (refs : list Reference)
    : Prop :=
  forall r r', r ∈ refs -> r' ∈ refs -> Path r = Path r' -> url r = url r'.

(** The outcome a task holds is that of [fetchIcon] on the URL of its
    charm id, and every icon stored is the body such a call returned for
    a task submitted. *)
Definition fetched_from (h : HTTPFetcher) (c : Call) : Prop :=
  Forall (fun t => forall out, progress t = Fetching out ->
            exists earlier,
              out = fetchIcon h (IconURL h (task_charmId t))
                      (local_client h) earlier)
    (parallel.active (run c)) /\
  forall p v, icons c !! p = Some v ->
    exists r earlier, r ∈ submitted c /\ Path r = p /\
      fetchIcon h (IconURL h r) (local_client h) earlier = (Some v, None).

(** With room for one task: the tasks that have ended, then the one that
    is active if any, are the tasks submitted, in that order. *)
Definition in_order (c : Call) : Prop :=
  parallel.limit (run c) = 1 /\
  (length (parallel.active (run c)) <= 1)%nat /\
  exists ended,
    submitted c = ended ++ (task_charmId <$> parallel.active (run c)) /\
    fetched c =
      ended ++ (task_charmId <$>
                  filter (fun t => is_fetching t = true)
                    (parallel.active (run c))).

(** The active tasks have different paths, and none of them has an icon
    stored yet. *)
Definition write_once (c : Call) : Prop :=
  NoDup (task_path <$> parallel.active (run c)) /\
  forall t, t ∈ parallel.active (run c) -> icons c !! task_path t = None.

(** The arguments an error of [errgo] was formatted with. *)
Definition error_args (err : error) : list fmt_arg :=
  match err with
  | foreign _ => []
  | errgo_Notef _ _ args => args
  | errgo_Newf _ args => args
  end.

(** Every error reported to the runner is one [fetchIcon] returned for
    the URL of a task submitted. *)
Definition failed_from (h : HTTPFetcher) (c : Call) : Prop :=
  Forall (fun err =>
            exists r earlier icon, r ∈ submitted c /\
              fetchIcon h (IconURL h r) (local_client h) earlier
              = (icon, Some err))
    (parallel.failed (run c)).

End Fetchers.

(** ** A small charm collaborator and HTTP clients to run the model on *)

Module demo.

Record Reference := { Schema : string; Name : string }.

Definition strip (pre s : string) : option string :=
  if String.prefix pre s
  then Some (substring (String.length pre)
               (String.length s - String.length pre) s)
  else None.

Definition has_colon (s : string) : bool :=
  match index 0 ":" s with Some _ => true | None => false end.

(** [cs:name], [local:name] or [name]; the name is not empty and has no
    colon. *)
Definition ParseReference (s : string) : result Reference :=
  let r :=
    match strip "cs:" s, strip "local:" s with
    | Some n, _ => {| Schema := "cs"; Name := n |}
    | None, Some n => {| Schema := "local"; Name := n |}
    | None, None => {| Schema := "cs"; Name := s |}
    end in
  if String.eqb (Name r) EmptyString || has_colon (Name r)
  then fail (foreign "charm URL has invalid form")
  else ok r.

Definition Path (r : Reference) : string := Name r.

Definition icon_url (r : Reference) : string :=
  "https://charms.test/" +:+ Schema r +:+ "/" +:+ Name r +:+ "/icon.svg".

Definition reply (code : Z) (status : string) (body : string)
    : http_Response :=
  {| Status := status; StatusCode := code;
     Body := {| content := list_byte_of_string body; read_error := None |} |}.

Definition serving : http_Client :=
  {| Get := fun _ url => ok (reply 200 "200 OK" ("<svg>" +:+ url +:+ "</svg>")) |}.

Definition missing : http_Client :=
  {| Get := fun _ url => ok (reply 404 "404 Not Found" "gone") |}.

(** The first request is served, the later ones are not. *)
Definition flaky : http_Client :=
  {| Get := fun earlier url =>
       match earlier with
       | [] => ok (reply 200 "200 OK" ("<svg>" +:+ url +:+ "</svg>"))
       | _ :: _ => ok (reply 404 "404 Not Found" "gone")
       end |}.

Definition created : http_Client :=
  {| Get := fun _ url => ok (reply 201 "201 Created" "<svg/>") |}.

Definition linker : LinkFetcher :=
  {| link_IconURL := icon_url |}.

Definition fetcher (n : Z) (c : http_Client) : HTTPFetcher :=
  {| Concurrency := n; IconURL := icon_url; Client := Some c |}.

Definition svc (charm : string) : ServiceData := {| Charm := charm |}.

Definition bundle (charms : list string) : BundleData :=
  {| Services := svc <$> charms |}.

(** A fetcher left at its zero values but for [IconURL]. *)
Definition bare : HTTPFetcher :=
  {| Concurrency := 0; IconURL := icon_url; Client := None |}.

Definition FetchIcons (h : HTTPFetcher) (b : BundleData)
    (schedule : list Action) : option Call :=
  HTTPFetcher_FetchIcons ParseReference Path serving h b schedule.

Definition link_FetchIcons (b : BundleData)
    : option (gmap string bytes) * option error :=
  LinkFetcher_FetchIcons ParseReference Path linker b.

Definition cs (name : string) : Reference :=
  {| Schema := "cs"; Name := name |}.

Definition local (name : string) : Reference :=
  {| Schema := "local"; Name := name |}.

Definition malformed : error := foreign "charm URL has invalid form".

(** The state a schedule leads to, the entry state when the schedule
    cannot be run. *)
Definition state (h : HTTPFetcher) (b : BundleData)
    (schedule : list Action) : Call :=
  match FetchIcons h b schedule with
  | Some c => c
  | None => HTTPFetcher_enter serving h b
  end.

Definition stack : BundleData :=
  bundle ["cs:mysql"; "local:mysql"; "wordpress"; "mysql"].

Definition stack_refs : list Reference :=
  [cs "mysql"; local "mysql"; cs "wordpress"; cs "mysql"].

(** The caller submits two tasks, the tasks run one after the other,
    the caller waits. *)
Definition in_turn : list Action :=
  [caller_step; caller_step; caller_step; caller_step;
   task_fetch 0; task_finish 0; task_fetch 0; task_finish 0; caller_step].

(** A valid charm, then one that does not parse, then a valid one. *)
Definition broken : BundleData :=
  bundle ["mysql"; "a:b"; "wordpress"].

(** The caller submits a task and moves on while the task fetches. *)
Definition one_fetching : list Action :=
  [caller_step; caller_step; task_fetch 0].

(** The caller submits a task, the task fetches, the caller meets the
    charm that does not parse. *)
Definition fetch_then_fail : list Action :=
  [caller_step; task_fetch 0; caller_step].

(** A link fetcher whose URL is made of the path alone. *)
Definition plain : LinkFetcher :=
  {| link_IconURL := fun r => "https://charms.test/" +:+ Name r |}.

(** The services of [stack], visited from the last to the first. *)
Definition backwards : BundleData :=
  {| Services := reverse (Services stack) |}.

(** As [in_turn], but the second task fetches and ends before the
    first. *)
Definition crossed : list Action :=
  [caller_step; caller_step; caller_step; caller_step;
   task_fetch 1; task_fetch 0; task_finish 1; task_finish 0; caller_step].

(** The first task has run and ended; then the second runs and the
    caller waits. *)
Definition first_done : list Action :=
  [caller_step; caller_step; caller_step; caller_step;
   task_fetch 0; task_finish 0].

Definition then_second : list Action :=
  [task_fetch 0; task_finish 0; caller_step].

(** A link fetcher whose URL has an ampersand, angle brackets and double
    quotes in its query. *)
Definition querying : LinkFetcher :=
  {| link_IconURL := fun r =>
       "https://charms.test/icon?id=" +:+ Name r +:+ "&size=<96>&alt="
       +:+ dquote +:+ "icon" +:+ dquote |}.

(** The same raw charm twice. *)
Definition twice : BundleData :=
  bundle ["cs:mysql"; "cs:mysql"].

End demo.

(** ** Properties of escapeString *)

Section Escaping.

Lemma escape_byte_clean b : Forall (fun c => ~ xml.reserved c) (xml.escape_byte b).
Proof.
  unfold xml.reserved.
  destruct b; cbn; repeat constructor; intros [?|[?|[?|?]]]; discriminate.
Qed.

Lemma EscapeText_clean s c : c ∈ xml.EscapeText s -> ~ xml.reserved c.
Proof.
  induction s as [|b s IH]; cbn; [by intros ?%elem_of_nil|].
  intros [Hc|Hc]%elem_of_app; [|by apply IH].
  pose proof (escape_byte_clean b) as Hb.
  rewrite Forall_forall in Hb. by apply Hb.
Qed.

Lemma Unescape_escape_byte n b rest :
  xml.UnescapeText (S n) (xml.escape_byte b ++ rest) =
  b :: xml.UnescapeText n rest.
Proof. destruct b; reflexivity. Qed.

Lemma Unescape_EscapeText n s :
  (length s <= n)%nat -> xml.UnescapeText n (xml.EscapeText s) = s.
Proof.
  revert n. induction s as [|b s IH]; intros n Hn.
  - by destruct n.
  - destruct n as [|n]; [cbn in Hn; lia|].
    cbn [xml.EscapeText]. rewrite Unescape_escape_byte. f_equal.
    apply IH. cbn in Hn. lia.
Qed.

Lemma escapeString_bytes s :
  list_byte_of_string (escapeString s) =
  xml.EscapeText (list_byte_of_string s).
Proof. apply list_byte_of_string_of_list_byte. Qed.

(** What [escapeString] writes has no reserved byte, and reading its
    references back gives the string it was given: every ampersand in
    it opens a reference. *)
Lemma escapeString_escapes s :
  (forall c, c ∈ list_byte_of_string (escapeString s) -> ~ xml.reserved c) /\
  xml.UnescapeText (length (list_byte_of_string s))
    (list_byte_of_string (escapeString s)) = list_byte_of_string s.
Proof.
  rewrite escapeString_bytes. split.
  - intros c. apply EscapeText_clean.
  - by apply Unescape_EscapeText.
Qed.

End Escaping.

(** ** Properties *)

Section Properties.

Context {Reference : Type}.
Variable ParseReference : string -> result Reference.
Variable Path : Reference -> string.
Variable http_DefaultClient : http_Client.

Local Abbreviation link_FetchIcons := (LinkFetcher_FetchIcons ParseReference Path).
Local Abbreviation link_range := (LinkFetcher_range ParseReference Path).
Local Abbreviation http_FetchIcons :=
  (HTTPFetcher_FetchIcons ParseReference Path http_DefaultClient).
Local Abbreviation enter := (HTTPFetcher_enter http_DefaultClient).
Local Abbreviation step := (step ParseReference Path).
Local Abbreviation exec := (exec ParseReference Path).
Local Abbreviation caller_next := (caller_next ParseReference Path).
Local Abbreviation parses := (parses ParseReference).
Local Abbreviation first_with := (first_with Path).
Local Abbreviation firsts := (firsts Path).
Local Abbreviation distinct := (distinct Path).
Local Abbreviation paths := (paths Path).
Local Abbreviation local_client := (local_client http_DefaultClient).
Local Abbreviation framed := (framed http_DefaultClient).
Local Abbreviation caller_at := (caller_at ParseReference).
Local Abbreviation scanned := (scanned ParseReference Path).
Local Abbreviation accounted := (accounted Path).
Local Abbreviation pick := (pick ParseReference Path).
Local Abbreviation sequential := (sequential ParseReference Path).

Implicit Types (h : HTTPFetcher (Reference := Reference)).
Implicit Types (c : Call (Reference := Reference)).
Implicit Types (t : Task (Reference := Reference)).
Implicit Types (refs : list Reference) (services : list ServiceData).

(** *** Schedules *)

Lemma exec_app s1 s2 c :
  exec (s1 ++ s2) c = exec s1 c ≫= exec s2.
Proof.
  revert c. induction s1 as [|a s1 IH]; intros c; cbn; [done|].
  destruct (step a c) as [c'|]; cbn; [apply IH | done].
Qed.

(** A property kept by every action holds along every schedule. *)
Lemma exec_invariant (I : Call -> Prop) :
  (forall a c c', I c -> step a c = Some c' -> I c') ->
  forall schedule c c', I c -> exec schedule c = Some c' -> I c'.
Proof.
  intros Hstep schedule. induction schedule as [|a s IH]; intros c c' Hc He.
  - cbn in He. by simplify_eq.
  - cbn in He. destruct (step a c) as [c1|] eqn:Hs; [|done].
    cbn in He. eapply IH; [|done]. by eapply Hstep.
Qed.

(** The cases of one action, with the new state written out: the wait,
    a charm that does not parse, a path seen before, a task submitted,
    a task entering [fetchIcon], a task failing, a task storing its
    icon. *)
Ltac step_cases H :=
  match type of H with
  | _ ?a ?c = Some _ =>
      destruct a as [|i|i];
      unfold step, caller_next, task_next_fetch, task_next_finish,
        parallel.Wait, parallel.Do in H;
      [ destruct (caller c) as [[|serviceData rest]|m e] eqn:Hcaller;
        [ destruct (parallel.active (run c)) eqn:Hactive;
          cbn in H; [|discriminate]
        | destruct (ParseReference (Charm serviceData))
            as [charmId|err] eqn:Hparse;
          [ destruct (default false (alreadyFetched c !! Path charmId))
              eqn:Hseen;
            [| destruct (Z.of_nat (length (parallel.active (run c)))
                         <? parallel.limit (run c)) eqn:Hroom;
               cbn in H; [|discriminate] ]
          | ]
        | discriminate ]
      | destruct (parallel.active (run c) !! i) as [t|] eqn:Hi;
        cbn in H; [|discriminate];
        destruct (progress t) eqn:Hprog; [|discriminate]
      | destruct (parallel.active (run c) !! i) as [t|] eqn:Hi;
        cbn in H; [|discriminate];
        destruct (progress t) as [|[icon [err|]]] eqn:Hprog;
        [discriminate| |] ];
      injection H as <-;
      cbn [receiver client concurrency icons alreadyFetched run caller
           submitted fetched parallel.limit parallel.active parallel.failed
           parallel.update parallel.complete];
      try match goal with
          | Hnone : parallel.active (run c) = [] |- _ => rewrite Hnone
          end
  end.

(** *** References, first occurrences *)

Lemma parses_app_inv s1 s2 refs :
  parses (s1 ++ s2) refs ->
  exists r1 r2, refs = r1 ++ r2 /\ parses s1 r1 /\ parses s2 r2.
Proof.
  unfold parses. intros (r1&r2&?&?&?)%Forall2_app_inv_l. eauto.
Qed.

Lemma parses_app s1 s2 r1 r2 :
  parses s1 r1 -> parses s2 r2 -> parses (s1 ++ s2) (r1 ++ r2).
Proof. apply Forall2_app. Qed.

Lemma parses_fun services refs refs' :
  parses services refs -> parses services refs' -> refs = refs'.
Proof.
  intros H. revert refs'. induction H as [|s r ss rs Hs _ IH]; intros refs' H'.
  - by inversion H'.
  - inversion H' as [|? r' ? rs' Hs' Hrest]; subst.
    rewrite Hs in Hs'. simplify_eq. f_equal. by apply IH.
Qed.

Lemma first_with_Some p refs r :
  first_with p refs = Some r -> Path r = p /\ r ∈ refs.
Proof.
  induction refs as [|r' refs IH]; cbn; [done|].
  case_decide.
  - intros ?; simplify_eq. split; [done | apply list_elem_of_here].
  - intros [? ?]%IH. split; [done | by apply list_elem_of_further].
Qed.

Lemma first_with_is_Some p refs :
  is_Some (first_with p refs) <-> p ∈ paths refs.
Proof.
  unfold paths. induction refs as [|r refs IH]; cbn.
  - split; [by intros [? ?] | by intros ?%elem_of_nil].
  - case_decide as Hp.
    + split; [|by eauto]. intros _. rewrite <- Hp. apply list_elem_of_here.
    + rewrite IH, elem_of_cons. naive_solver.
Qed.

Lemma first_with_app p r1 r2 :
  first_with p (r1 ++ r2) =
  match first_with p r1 with
  | Some r => Some r
  | None => first_with p r2
  end.
Proof.
  induction r1 as [|r r1 IH]; cbn; [done|]. by case_decide.
Qed.

Lemma elem_of_firsts seen refs r :
  r ∈ firsts seen refs ->
  Path r ∉ seen /\ first_with (Path r) refs = Some r.
Proof.
  revert seen. induction refs as [|r' refs IH]; intros seen; cbn.
  - by intros ?%elem_of_nil.
  - case_decide as Hs.
    + intros [Hn Hf]%IH. split; [done|].
      case_decide as Hp; [|done]. by rewrite Hp in Hs.
    + intros [->|[Hn Hf]%IH]%elem_of_cons.
      * split; [done|]. by rewrite decide_True.
      * split; [set_solver|]. rewrite decide_False; [done|]. set_solver.
Qed.

Lemma elem_of_paths_firsts seen refs p :
  p ∈ paths (firsts seen refs) <-> p ∉ seen /\ p ∈ paths refs.
Proof.
  unfold paths. revert seen. induction refs as [|r refs IH]; intros seen; cbn.
  - set_solver.
  - case_decide as Hs.
    + rewrite IH. set_solver.
    + rewrite fmap_cons, !elem_of_cons, IH.
      destruct (decide (p = Path r)); set_solver.
Qed.

Lemma NoDup_paths_firsts seen refs : NoDup (paths (firsts seen refs)).
Proof.
  unfold paths. revert seen. induction refs as [|r refs IH]; intros seen; cbn.
  - constructor.
  - case_decide; [apply IH|]. rewrite fmap_cons. constructor; [|apply IH].
    intros [Hn _]%elem_of_paths_firsts. set_solver.
Qed.

Lemma firsts_snoc seen refs r :
  firsts seen (refs ++ [r]) =
  firsts seen refs ++
    (if decide (Path r ∈ seen \/ Path r ∈ paths refs) then [] else [r]).
Proof.
  unfold paths. revert seen. induction refs as [|r' refs IH]; intros seen; cbn.
  - case_decide as Hs.
    + rewrite decide_True; [done | by left].
    + rewrite decide_False; [done|]. intros [?|?%elem_of_nil]; done.
  - destruct (decide (Path r' ∈ seen)) as [Hs|Hs].
    + rewrite IH. f_equal. apply decide_ext.
      rewrite elem_of_cons. split.
      * intros [?|?]; auto.
      * intros [?|[Heq|?]]; auto. left. by rewrite Heq.
    + cbn. rewrite IH. do 2 f_equal. apply decide_ext.
      rewrite elem_of_cons, elem_of_union, elem_of_singleton. tauto.
Qed.

Lemma distinct_snoc refs r :
  distinct (refs ++ [r]) =
  distinct refs ++ (if decide (Path r ∈ paths refs) then [] else [r]).
Proof.
  unfold distinct. rewrite firsts_snoc. f_equal.
  apply decide_ext. set_solver.
Qed.

Lemma elem_of_paths_distinct refs p :
  p ∈ paths (distinct refs) <-> p ∈ paths refs.
Proof. unfold distinct. rewrite elem_of_paths_firsts. set_solver. Qed.

Lemma first_with_elem_of_distinct p refs r :
  first_with p refs = Some r -> r ∈ distinct refs.
Proof.
  intros Hf. pose proof (first_with_Some _ _ _ Hf) as [Hp _].
  assert (p ∈ paths (distinct refs)) as Hin.
  { apply elem_of_paths_distinct, first_with_is_Some. by eexists. }
  unfold paths in Hin. apply list_elem_of_fmap in Hin as (r'&Hr'&Hin).
  pose proof (elem_of_firsts _ _ _ Hin) as [_ Hf'].
  rewrite <- Hr', Hf in Hf'. by simplify_eq.
Qed.

Lemma filter_key_None {A K} `{EqDecision K} (f : A -> K) (l : list A) k :
  k ∉ f <$> l -> filter (fun y => f y = k) l = [].
Proof.
  induction l as [|y l IH]; [done|].
  rewrite fmap_cons, not_elem_of_cons. intros [Hy Hl].
  rewrite filter_cons_False by done. by apply IH.
Qed.

(** In a list without two elements of the same key, the elements with
    the key of a member are that member alone. *)
Lemma filter_key_NoDup {A K} `{EqDecision K} (f : A -> K) (l : list A) x :
  NoDup (f <$> l) -> x ∈ l ->
  filter (fun y => f y = f x) l = [x].
Proof.
  induction l as [|y l IH]; [by intros _ ?%elem_of_nil|].
  rewrite fmap_cons, NoDup_cons. intros [Hy Hnd] Hin.
  apply elem_of_cons in Hin as [->|Hin].
  - rewrite filter_cons_True by done. f_equal. by apply filter_key_None.
  - rewrite filter_cons_False; [by apply IH|].
    intros Heq. apply Hy. rewrite Heq. by apply list_elem_of_fmap_2.
Qed.

Lemma filter_key_Permutation {A K} `{EqDecision K} (f : A -> K)
    (l1 l2 : list A) k :
  l1 ≡ₚ l2 -> filter (fun y => f y = k) l1 ≡ₚ filter (fun y => f y = k) l2.
Proof. intros H. by rewrite H. Qed.

Lemma one_with_path refs p r :
  first_with p refs = Some r ->
  filter (fun r' => Path r' = p) (distinct refs) = [r].
Proof.
  intros Hf. pose proof (first_with_Some _ _ _ Hf) as [<- _].
  apply (filter_key_NoDup Path).
  - apply NoDup_paths_firsts.
  - by eapply first_with_elem_of_distinct.
Qed.

(** A map has one entry for a key it holds. *)
Lemma map_one_entry {V} (m : gmap string V) p v :
  m !! p = Some v ->
  filter (fun e => e.1 = p) (map_to_list m) = [(p, v)].
Proof.
  intros Hm.
  apply (filter_key_NoDup fst (map_to_list m) (p, v)).
  - apply NoDup_fst_map_to_list.
  - by apply elem_of_map_to_list.
Qed.

(** *** LinkFetcher *)

Lemma link_range_ok l services refs af ics :
  parses services refs ->
  exists ics', link_range l services af ics = (Some ics', None) /\
    forall p, ics' !! p =
      if default false (af !! p) then ics !! p
      else match first_with p refs with
           | Some r => Some (svg_link (escapeString (link_IconURL l r)))
           | None => ics !! p
           end.
Proof.
  intros H. revert af ics.
  induction H as [|s r ss rs Hs _ IH]; intros af ics; cbn.
  - eexists. split; [done|]. intros p. by destruct (default false (af !! p)).
  - rewrite Hs. destruct (default false (af !! Path r)) eqn:Haf; cbn.
    + destruct (IH af ics) as (ics'&->&Hl). eexists. split; [done|].
      intros p. rewrite Hl. destruct (default false (af !! p)) eqn:Hp; [done|].
      rewrite decide_False; [done|]. intros Heq. by rewrite <- Heq, Haf in Hp.
    + destruct (IH (<[Path r:=true]> af)
                  (<[Path r:=svg_link (escapeString (link_IconURL l r))]> ics))
        as (ics'&->&Hl).
      eexists. split; [done|]. intros p. rewrite Hl.
      destruct (decide (Path r = p)) as [<-|Hne].
      * rewrite Haf, !lookup_insert_eq. done.
      * rewrite !lookup_insert_ne by done. done.
Qed.

Lemma link_range_fail l pre bad post refs err af ics :
  parses pre refs -> ParseReference (Charm bad) = fail err ->
  link_range l (pre ++ bad :: post) af ics =
  (None, Some (parse_failure bad err)).
Proof.
  intros H Hbad. revert af ics.
  induction H as [|s r ss rs Hs _ IH]; intros af ics; cbn.
  - by rewrite Hbad.
  - rewrite Hs. destruct (default false (af !! Path r)); cbn; apply IH.
Qed.

Lemma link_FetchIcons_ok l b refs :
  parses (Services b) refs ->
  exists ics, link_FetchIcons l b = (Some ics, None) /\
    forall p, ics !! p =
      (fun r => svg_link (escapeString (link_IconURL l r))) <$>
        first_with p refs.
Proof.
  intros H. destruct (link_range_ok l _ _ ∅ ∅ H) as (ics&He&Hl).
  exists ics. split; [done|]. intros p. rewrite Hl, !lookup_empty. cbn.
  by destruct (first_with p refs).
Qed.

Lemma dom_first_with {V} (m : gmap string V) (f : Reference -> V) refs :
  (forall p, m !! p = f <$> first_with p refs) ->
  dom m = list_to_set (paths refs).
Proof.
  intros Hm. apply set_eq. intros p.
  rewrite elem_of_dom, Hm, fmap_is_Some, first_with_is_Some.
  by rewrite elem_of_list_to_set.
Qed.

(** *** The receiver and the locals *)

Lemma framed_enter h b : framed h (enter h b).
Proof. by unfold framed. Qed.

Lemma framed_step h a c c' : framed h c -> step a c = Some c' -> framed h c'.
Proof.
  unfold framed. intros (F1&F2&F3&F4) Hs. step_cases Hs; done.
Qed.

Lemma framed_exec h b schedule c :
  http_FetchIcons h b schedule = Some c -> framed h c.
Proof.
  apply (exec_invariant (framed h)); [apply framed_step | apply framed_enter].
Qed.

Lemma local_concurrency_pos h : 1 <= local_concurrency h.
Proof. unfold local_concurrency. destruct (Z.leb_spec (Concurrency h) 0); lia. Qed.

(** *** The cap *)

Lemma capped_step a c c' : capped c -> step a c = Some c' -> capped c'.
Proof.
  unfold capped. intros Hc Hs. step_cases Hs.
  - done.
  - done.
  - rewrite length_app; cbn. apply Z.ltb_lt in Hroom. lia.
  - done.
  - by rewrite length_insert.
  - rewrite length_delete; [lia | by eexists].
  - rewrite length_delete; [lia | by eexists].
Qed.

Lemma capped_exec h b schedule c :
  http_FetchIcons h b schedule = Some c -> capped c.
Proof.
  apply (exec_invariant capped); [apply capped_step|].
  unfold capped; cbn. pose proof (local_concurrency_pos h). lia.
Qed.

Lemma in_flight_active c :
  (in_flight c <= length (parallel.active (run c)))%nat.
Proof. apply length_filter. Qed.

(** *** The scan of the services *)

Lemma scanned_enter h b : scanned b (enter h b).
Proof.
  exists [], []. split_and!; [constructor | done | done |].
  intros p. cbn. rewrite lookup_empty. cbn. split; [done|].
  by intros ?%elem_of_nil.
Qed.

Lemma paths_snoc refs r p :
  p ∈ paths (refs ++ [r]) <-> p ∈ paths refs \/ p = Path r.
Proof.
  unfold paths. rewrite fmap_app, elem_of_app. cbn.
  by rewrite list_elem_of_singleton.
Qed.

Lemma scanned_step b a c c' :
  scanned b c -> step a c = Some c' -> scanned b c'.
Proof.
  intros (visited&refs&Hp&Hat&Hsub&Haf) Hs.
  unfold scanned, caller_at in *. step_cases Hs.
  - exists visited, refs. split_and!; try done.
    rewrite app_nil_r in Hat.
    destruct (head (parallel.failed (run c))); by right.
  - exists (visited ++ [serviceData]), (refs ++ [charmId]).
    apply Haf in Hseen as Hin. split_and!.
    + apply parses_app; [done|]. by repeat constructor.
    + by rewrite <- app_assoc.
    + by rewrite distinct_snoc, decide_True, app_nil_r.
    + intros p. rewrite paths_snoc, Haf. split; [by left|].
      by intros [?| ->].
  - exists (visited ++ [serviceData]), (refs ++ [charmId]).
    assert (Path charmId ∉ paths refs) as Hin.
    { intros Hin%Haf. by rewrite Hin in Hseen. }
    split_and!.
    + apply parses_app; [done|]. by repeat constructor.
    + by rewrite <- app_assoc.
    + by rewrite distinct_snoc, decide_False, Hsub.
    + intros p. rewrite paths_snoc, <- Haf.
      destruct (decide (Path charmId = p)) as [<-|Hne].
      * rewrite lookup_insert_eq. cbn. by split; [right|].
      * rewrite lookup_insert_ne by done. split; [by left|].
        by intros [?|?].
  - exists visited, refs. split_and!; try done.
    left. by exists serviceData, rest, err.
  - exists visited, refs. split_and!; try done.
    destruct (caller c); [done|]. destruct Hat as [?|(?&Hact&?)]; [by left|].
    by rewrite Hact in Hi.
  - exists visited, refs. split_and!; try done.
    destruct (caller c); [done|]. destruct Hat as [?|(?&Hact&?)]; [by left|].
    by rewrite Hact in Hi.
  - exists visited, refs. split_and!; try done.
    destruct (caller c); [done|]. destruct Hat as [?|(?&Hact&?)]; [by left|].
    by rewrite Hact in Hi.
Qed.

Lemma scanned_exec h b schedule c :
  http_FetchIcons h b schedule = Some c -> scanned b c.
Proof.
  apply (exec_invariant (scanned b));
    [apply scanned_step | apply scanned_enter].
Qed.

(** *** The tasks and the icons *)

Lemma lookup_split {A} (l : list A) i x :
  l !! i = Some x ->
  exists l1 l2, l = l1 ++ x :: l2 /\
    (forall y, <[i:=y]> l = l1 ++ y :: l2) /\ delete i l = l1 ++ l2.
Proof.
  intros Hi. exists (take i l), (drop (S i) l). split_and!.
  - by rewrite take_drop_middle.
  - intros y. apply insert_take_drop. by eapply lookup_lt_Some.
  - apply delete_take_drop.
Qed.

Lemma accounted_enter h b : accounted (enter h b).
Proof.
  unfold accounted, spawned. cbn. split_and!; try done.
  - intros p [? Hp]. by rewrite lookup_empty in Hp.
  - intros _ p ?%elem_of_nil. done.
Qed.

Lemma accounted_step a c c' :
  accounted c -> step a c = Some c' -> accounted c'.
Proof.
  intros (HA&HB&HC&HD) Hs. unfold accounted, spawned in *. step_cases Hs.
  - done.
  - done.
  - split_and!.
    + rewrite filter_app, fmap_app, filter_cons_True, filter_nil by done.
      cbn. by rewrite app_assoc, HA.
    + apply Forall_app. split.
      * eapply Forall_impl; [done|]. intros t [? ?]. split; [done|].
        apply elem_of_app. by left.
      * repeat constructor. apply elem_of_app. right. apply list_elem_of_here.
    + intros p Hp. apply paths_snoc. left. by apply HC.
    + intros Hf p [Hp| ->]%paths_snoc.
      * destruct (HD Hf p Hp) as [?|?]; [by left|]. right.
        rewrite fmap_app, elem_of_app. by left.
      * right. rewrite fmap_app, elem_of_app. right. apply list_elem_of_here.
  - done.
  - destruct (lookup_split _ _ _ Hi) as (l1&l2&Hl&Hins&_).
    rewrite Hins. rewrite Hl in HA, HB, HD. clear Hins Hl Hi.
    rewrite !filter_app, !fmap_app in *.
    rewrite filter_cons_True in HA by (unfold is_spawned; by rewrite Hprog).
    rewrite filter_cons_False by (by unfold is_spawned).
    rewrite fmap_cons in *. cbn [task_path].
    apply Forall_app in HB as [HB1 HB2]. apply Forall_cons in HB2 as [HB0 HB2].
    split_and!; try done.
    + rewrite <- HA, <- !app_assoc. f_equiv. cbn.
      by rewrite Permutation_middle.
    + apply Forall_app. split; [done|]. by constructor.
  - destruct (lookup_split _ _ _ Hi) as (l1&l2&Hl&_&Hdel).
    rewrite Hdel. rewrite Hl in HA, HB, HD. clear Hdel Hl Hi.
    rewrite !filter_app, !fmap_app in *.
    rewrite filter_cons_False in HA by (unfold is_spawned; by rewrite Hprog).
    apply Forall_app in HB as [HB1 HB2]. apply Forall_cons in HB2 as [HB0 HB2].
    split_and!; try done.
    + apply Forall_app. by split.
    + cbn. by intros [_ ?]%app_eq_nil.
  - destruct (lookup_split _ _ _ Hi) as (l1&l2&Hl&_&Hdel).
    rewrite Hdel. rewrite Hl in HA, HB, HD. clear Hdel Hl Hi.
    rewrite !filter_app, !fmap_app in *.
    rewrite filter_cons_False in HA by (unfold is_spawned; by rewrite Hprog).
    apply Forall_app in HB as [HB1 HB2]. apply Forall_cons in HB2 as [HB0 HB2].
    destruct HB0 as [Hpath Hin].
    split_and!; try done.
    + apply Forall_app. by split.
    + intros p. destruct (decide (task_path t = p)) as [<-|Hne].
      * intros _. rewrite Hpath. by apply list_elem_of_fmap_2.
      * rewrite lookup_insert_ne by done. apply HC.
    + rewrite app_nil_r. intros Hf p Hp.
      destruct (decide (task_path t = p)) as [<-|Hne].
      * left. by rewrite lookup_insert_eq.
      * rewrite lookup_insert_ne by done.
        destruct (HD Hf p Hp) as [?|Hq]; [by left|]. right.
        rewrite elem_of_app in *. rewrite fmap_cons, elem_of_cons in Hq.
        naive_solver.
Qed.

Lemma accounted_exec h b schedule c :
  http_FetchIcons h b schedule = Some c -> accounted c.
Proof.
  apply (exec_invariant accounted);
    [apply accounted_step | apply accounted_enter].
Qed.

(** *** The outcomes of fetchIcon *)

Lemma fetchIcon_cases h url cl earlier :
  match Get cl earlier url with
  | fail err =>
      fetchIcon h url cl earlier =
      (None, Some (errgo_Notef err "HTTP error fetching %s: %v"
                     [arg_string url; arg_error err]))
  | ok resp =>
      if decide (StatusCode resp = http_StatusOK) then
        match read_error (Body resp) with
        | Some err =>
            fetchIcon h url cl earlier =
            (None, Some (errgo_Notef err
                           "could not read icon data from url %s"
                           [arg_string url]))
        | None =>
            fetchIcon h url cl earlier = (Some (content (Body resp)), None)
        end
      else
        fetchIcon h url cl earlier =
        (None, Some (errgo_Newf "cannot retrieve icon from %s: %s"
                       [arg_string url; arg_string (Status resp)]))
  end.
Proof.
  unfold fetchIcon, ioutil_ReadAll.
  destruct (Get cl earlier url) as [resp|err]; [|done].
  destruct (decide (StatusCode resp = http_StatusOK)) as [->|Hne].
  - cbn. by destruct (read_error (Body resp)).
  - destruct (Z.eqb_spec (StatusCode resp) http_StatusOK); [done|]. done.
Qed.

Lemma fetchIcon_error_iff h url cl earlier :
  is_Some (fetchIcon h url cl earlier).2 <-> fetch_failure cl earlier url.
Proof using Type.
  clear ParseReference Path http_DefaultClient.
  pose proof (fetchIcon_cases h url cl earlier) as Hc.
  unfold fetch_failure in *.
  destruct (Get cl earlier url) as [resp|err];
    [destruct (decide (StatusCode resp = http_StatusOK)) as [Hok|Hne];
     [destruct (read_error (Body resp)) as [cause|] eqn:Hr|]|];
    rewrite Hc; cbn; naive_solver.
Qed.

(** *** Every call returns *)

Lemma step_measure a c c' :
  step a c = Some c' -> (measure c' < measure c)%nat.
Proof.
  intros Hs. unfold measure. step_cases Hs.
  - rewrite ?Hactive.
    destruct (head (parallel.failed (run c))); cbn; lia.
  - cbn [length]. lia.
  - rewrite sum_list_with_app. cbn. lia.
  - cbn [length]. lia.
  - destruct (lookup_split _ _ _ Hi) as (l1&l2&Hl&Hins&_).
    assert (task_weight t = 2%nat) as Ht
      by (unfold task_weight; by rewrite Hprog).
    rewrite Hins, Hl, !sum_list_with_app. cbn. rewrite Ht.
    destruct (caller c); lia.
  - destruct (lookup_split _ _ _ Hi) as (l1&l2&Hl&_&Hdel).
    assert (task_weight t = 1%nat) as Ht
      by (unfold task_weight; by rewrite Hprog).
    rewrite Hdel, Hl, !sum_list_with_app. cbn. rewrite Ht.
    destruct (caller c); lia.
  - destruct (lookup_split _ _ _ Hi) as (l1&l2&Hl&_&Hdel).
    assert (task_weight t = 1%nat) as Ht
      by (unfold task_weight; by rewrite Hprog).
    rewrite Hdel, Hl, !sum_list_with_app. cbn. rewrite Ht.
    destruct (caller c); lia.
Qed.

Lemma step_limit a c c' :
  step a c = Some c' -> parallel.limit (run c') = parallel.limit (run c).
Proof. intros Hs. step_cases Hs; done. Qed.

(** No deadlock: while the caller has not returned, the action picked
    by the sequential schedule is enabled. *)
Lemma pick_enabled c :
  1 <= parallel.limit (run c) -> has_returned c = false ->
  is_Some (step (pick c) c).
Proof.
  intros Hlim Hret. unfold pick.
  destruct (caller_next c) as [c'|] eqn:Hnext; [by exists c'|].
  destruct (parallel.active (run c)) as [|t ts] eqn:Hact.
  - exfalso. revert Hnext.
    unfold caller_next, has_returned, parallel.Wait, parallel.Do in *.
    destruct (caller c) as [[|s rest]|]; [| |done].
    + by rewrite Hact.
    + destruct (ParseReference (Charm s)); [|done].
      destruct (default false _); [done|].
      rewrite Hact. cbn.
      change (Z.of_nat 0) with 0.
      destruct (Z.ltb_spec 0 (parallel.limit (run c))); [done | lia].
  - unfold is_spawned.
    destruct (progress t) as [|[icon [err|]]] eqn:Hprog; cbn;
      unfold task_next_fetch, task_next_finish; rewrite Hact; cbn;
      rewrite Hprog; by eexists.
Qed.

Lemma measure_returned c : measure c = O -> has_returned c = true.
Proof.
  unfold measure, has_returned. destruct (caller c); [lia | done].
Qed.

Lemma sequential_returns fuel c :
  1 <= parallel.limit (run c) -> (measure c <= fuel)%nat ->
  exists c', exec (sequential fuel c) c = Some c' /\ has_returned c' = true.
Proof.
  revert c. induction fuel as [|fuel IH]; intros c Hlim Hm.
  - exists c. split; [done|]. apply measure_returned. lia.
  - cbn.
    destruct (has_returned c) eqn:Hret; [by exists c|].
    destruct (pick_enabled c Hlim Hret) as [c1 Hs]. rewrite Hs. cbn.
    rewrite Hs. cbn. apply IH.
    + by rewrite (step_limit _ _ _ Hs).
    + pose proof (step_measure _ _ _ Hs). lia.
Qed.

Lemma http_returns h b :
  exists schedule c m e,
    http_FetchIcons h b schedule = Some c /\ caller c = Returned m e.
Proof.
  destruct (sequential_returns (measure (enter h b)) (enter h b))
    as (c&He&Hr); [apply local_concurrency_pos | done |].
  unfold has_returned in Hr. destruct (caller c) as [|m e] eqn:Hc; [done|].
  by exists (sequential (measure (enter h b)) (enter h b)), c, m, e.
Qed.

Lemma http_returns_from h b schedule c :
  http_FetchIcons h b schedule = Some c ->
  exists more c' m e,
    http_FetchIcons h b (schedule ++ more) = Some c' /\
    caller c' = Returned m e.
Proof.
  intros He. pose proof (framed_exec _ _ _ _ He) as (_&_&_&Hl).
  destruct (sequential_returns (measure c) c) as (c'&He'&Hr); [|done|].
  { rewrite Hl. apply local_concurrency_pos. }
  unfold has_returned in Hr. destruct (caller c') as [|m e] eqn:Hc; [done|].
  exists (sequential (measure c) c), c', m, e. split; [|done].
  unfold HTTPFetcher_FetchIcons in *. by rewrite exec_app, He.
Qed.

(** What a call that went through all the services returns. *)
Lemma returned_all h b refs schedule c m e :
  parses (Services b) refs ->
  http_FetchIcons h b schedule = Some c -> caller c = Returned m e ->
  submitted c = distinct refs /\ fetched c ≡ₚ distinct refs /\
  parallel.active (run c) = [] /\
  e = head (parallel.failed (run c)) /\
  m = match head (parallel.failed (run c)) with
      | Some _ => None
      | None => Some (icons c)
      end.
Proof.
  intros Hp He Hc.
  destruct (scanned_exec _ _ _ _ He) as (visited&refs0&Hp0&Hat&Hsub&_).
  destruct (accounted_exec _ _ _ _ He) as (HA&_).
  unfold caller_at in Hat. rewrite Hc in Hat.
  destruct Hat as [(bad&post&err&Hb&Hbad&_)|(Hb&Hact&-> & ->)].
  - rewrite Hb in Hp. apply parses_app_inv in Hp as (r1&r2&_&_&Hp2).
    inversion Hp2 as [|? ? ? ? Hok]; subst. by rewrite Hbad in Hok.
  - rewrite Hb in Hp. rewrite (parses_fun _ _ _ Hp Hp0).
    unfold spawned in HA. rewrite Hact in HA. cbn in HA.
    rewrite app_nil_r in HA. by rewrite <- Hsub.
Qed.

Lemma all_served_step h a c c' :
  (forall earlier url, ~ fetch_failure (local_client h) earlier url) ->
  framed h c -> all_served c -> step a c = Some c' -> all_served c'.
Proof.
  intros Hcl (_&Hclient&_) [Hf Ht] Hs. unfold all_served in *.
  step_cases Hs; try done.
  - split; [done|]. apply Forall_app. split; [done|]. by repeat constructor.
  - split; [done|].
    destruct (lookup_split _ _ _ Hi) as (l1&l2&Hl&Hins&_).
    rewrite Hins. rewrite Hl in Ht.
    apply Forall_app in Ht as [Ht1 Ht2]. apply Forall_cons in Ht2 as [_ Ht2].
    apply Forall_app. split; [done|]. constructor; [|done].
    cbn. intros icon err Heq.
    pose proof (fetchIcon_error_iff (receiver c)
                  (IconURL (receiver c) (task_charmId t)) (client c)
                  (requested c)) as Hiff.
    rewrite Hclient in Hiff.
    apply (Hcl (requested c) (IconURL (receiver c) (task_charmId t))).
    apply Hiff. simplify_eq. rewrite Hclient in *.
    match goal with H : fetchIcon _ _ _ _ = _ |- _ => rewrite H end.
    by eexists.
  - exfalso. rewrite Forall_forall in Ht.
    eapply (Ht t); [by eapply list_elem_of_lookup_2 | done].
  - split; [by rewrite Hf|].
    destruct (lookup_split _ _ _ Hi) as (l1&l2&Hl&_&Hdel).
    rewrite Hdel. rewrite Hl in Ht.
    apply Forall_app in Ht as [Ht1 Ht2]. apply Forall_cons in Ht2 as [_ Ht2].
    apply Forall_app. by split.
Qed.

Lemma all_served_exec h b schedule c :
  (forall earlier url, ~ fetch_failure (local_client h) earlier url) ->
  http_FetchIcons h b schedule = Some c -> all_served c.
Proof.
  intros Hcl He.
  enough (framed h c /\ all_served c) as [_ ?] by done.
  revert He. apply (exec_invariant (fun c => framed h c /\ all_served c)).
  - intros a c1 c2 [Hfr Hs] Hstep. split.
    + by eapply framed_step.
    + by eapply all_served_step.
  - split; [apply framed_enter|]. by split; [|constructor].
Qed.

(** *** The keys of the result *)

Lemma one_entry_dom {V} (m : gmap string V) p :
  p ∈ dom m -> length (filter (fun e => e.1 = p) (map_to_list m)) = 1%nat.
Proof.
  intros [v Hv]%elem_of_dom. by rewrite (map_one_entry m p v Hv).
Qed.

Lemma one_task_with_path refs p (l : list Reference) :
  l ≡ₚ distinct refs -> p ∈ paths refs ->
  length (filter (fun r => Path r = p) l) = 1%nat.
Proof.
  intros Hl [r Hr]%first_with_is_Some.
  rewrite (filter_key_Permutation Path _ _ p Hl).
  by rewrite (one_with_path _ _ _ Hr).
Qed.

Lemma returned_dom h b refs schedule c m e :
  parses (Services b) refs ->
  http_FetchIcons h b schedule = Some c -> caller c = Returned m e ->
  parallel.failed (run c) = [] ->
  m = Some (icons c) /\ e = None /\
  dom (icons c) = list_to_set (paths refs).
Proof.
  intros Hp He Hc Hf.
  destruct (returned_all _ _ _ _ _ _ _ Hp He Hc) as (Hsub&_&Hact&->& ->).
  destruct (accounted_exec _ _ _ _ He) as (_&_&HC&HD).
  rewrite Hf. cbn. split_and!; try done.
  apply set_eq. intros p.
  rewrite elem_of_dom, elem_of_list_to_set, <- elem_of_paths_distinct, <- Hsub.
  split; [apply HC|]. intros Hin.
  destruct (HD Hf p Hin) as [?|Hin']; [done|].
  rewrite Hact in Hin'. by apply elem_of_nil in Hin'.
Qed.

(** C1: when every charm of the bundle parses, [LinkFetcher.FetchIcons]
    returns a map whose keys are the paths of the references, one entry
    for each however often it occurs; [HTTPFetcher.FetchIcons] returns
    under some schedule, and whenever it returns with no fetch failed it
    returns such a map, having submitted one task and made one fetch for
    each path; no fetch fails when the client fails none. *)
Theorem FetchIcons_keys l h b refs :
  parses (Services b) refs ->
  (exists ics, link_FetchIcons l b = (Some ics, None) /\
     dom ics = list_to_set (paths refs) /\
     forall p, p ∈ paths refs ->
       length (filter (fun e => e.1 = p) (map_to_list ics)) = 1%nat) /\
  (exists schedule c m e,
     http_FetchIcons h b schedule = Some c /\ caller c = Returned m e) /\
  (forall schedule c m e,
     http_FetchIcons h b schedule = Some c -> caller c = Returned m e ->
     parallel.failed (run c) = [] ->
     exists ics, m = Some ics /\ e = None /\
       dom ics = list_to_set (paths refs) /\
       forall p, p ∈ paths refs ->
         length (filter (fun e => e.1 = p) (map_to_list ics)) = 1%nat /\
         length (filter (fun r => Path r = p) (submitted c)) = 1%nat /\
         length (filter (fun r => Path r = p) (fetched c)) = 1%nat) /\
  ((forall earlier url, ~ fetch_failure (local_client h) earlier url) ->
   forall schedule c,
     http_FetchIcons h b schedule = Some c -> parallel.failed (run c) = []).
Proof.
  intros Hp. split_and!.
  - destruct (link_FetchIcons_ok l b refs Hp) as (ics&He&Hl).
    exists ics. pose proof (dom_first_with _ _ _ Hl) as Hd.
    split_and!; [done | done |]. intros p Hin. apply one_entry_dom.
    by rewrite Hd, elem_of_list_to_set.
  - apply http_returns.
  - intros schedule c m e He Hc Hf.
    destruct (returned_dom _ _ _ _ _ _ _ Hp He Hc Hf) as (->& -> &Hd).
    destruct (returned_all _ _ _ _ _ _ _ Hp He Hc) as (Hsub&Hfet&_).
    exists (icons c). split_and!; try done. intros p Hin. split_and!.
    + apply one_entry_dom. by rewrite Hd, elem_of_list_to_set.
    + apply (one_task_with_path refs); [by rewrite Hsub | done].
    + by apply (one_task_with_path refs).
  - intros Hcl schedule c He. by apply (all_served_exec h b schedule c Hcl).
Qed.

(** *** Failures *)

(** C3: in a call whose charms all parse, once a fetch task has failed
    the return is the error of [run.Wait], one of the tasks' errors,
    and no map, whatever icons the other tasks have stored. *)
Theorem task_failure_fails_call h b refs schedule c m e :
  parses (Services b) refs ->
  http_FetchIcons h b schedule = Some c -> caller c = Returned m e ->
  parallel.failed (run c) <> [] ->
  m = None /\
  exists err, e = Some err /\ parallel.Wait (run c) = Some (Some err) /\
    err ∈ parallel.failed (run c).
Proof.
  intros Hp He Hc Hf.
  destruct (returned_all _ _ _ _ _ _ _ Hp He Hc) as (_&_&Hact&->& ->).
  unfold parallel.Wait. rewrite Hact.
  destruct (parallel.failed (run c)) as [|err errs]; [done|]. cbn.
  split; [done|]. exists err. split_and!; [done | done |].
  apply list_elem_of_here.
Qed.

Lemma parses_before_failure visited refs0 rest pre refs bad post err :
  parses visited refs0 -> parses pre refs ->
  ParseReference (Charm bad) = fail err ->
  visited ++ rest = pre ++ bad :: post ->
  refs0 `prefix_of` refs.
Proof.
  intros Hv. revert pre refs.
  induction Hv as [|s r vs rs Hs _ IH]; intros pre refs Hpre Hbad Heq.
  - apply prefix_nil.
  - destruct Hpre as [|s' r' pre' refs' Hs' Hpre']; cbn in Heq.
    + simplify_eq. by rewrite Hs in Hbad.
    + simplify_eq. rewrite Hs in Hs'. simplify_eq.
      apply prefix_cons. by eapply IH.
Qed.

Lemma parses_at_failure visited refs0 bad' post' err' pre refs bad post err :
  parses visited refs0 -> parses pre refs ->
  ParseReference (Charm bad) = fail err ->
  ParseReference (Charm bad') = fail err' ->
  visited ++ bad' :: post' = pre ++ bad :: post ->
  refs0 = refs /\ bad' = bad /\ err' = err.
Proof.
  intros Hv. revert pre refs.
  induction Hv as [|s r vs rs Hs _ IH]; intros pre refs Hpre Hbad Hbad' Heq.
  - destruct Hpre as [|s' r' pre' refs' Hs' Hpre']; cbn in Heq.
    + simplify_eq. rewrite Hbad in Hbad'. by simplify_eq.
    + simplify_eq. by rewrite Hs' in Hbad'.
  - destruct Hpre as [|s' r' pre' refs' Hs' Hpre']; cbn in Heq.
    + simplify_eq. by rewrite Hs in Hbad.
    + simplify_eq. rewrite Hs in Hs'. simplify_eq.
      destruct (IH _ _ Hpre' Hbad Hbad' ltac:(done)) as (->&->&->). done.
Qed.

(** C2 (amended): when a charm of the bundle does not parse, the ones
    visited before it parsing, both fetchers return the error that wraps
    the parser's and names the raw string, and no map.  [LinkFetcher]
    fetches nothing at all.  [HTTPFetcher] returns under some schedule,
    and at every point of every schedule the tasks submitted are those
    of first references among the charms visited before the failing one;
    each is fetched at most once, and none is submitted for a charm that
    comes after. *)
Theorem parse_failure_aborts l h b pre bad post refs err :
  Services b = pre ++ bad :: post -> parses pre refs ->
  ParseReference (Charm bad) = fail err ->
  let failure :=
    errgo_Notef err "cannot parse charm %q" [arg_string (Charm bad)] in
  link_FetchIcons l b = (None, Some failure) /\
  (exists schedule c,
     http_FetchIcons h b schedule = Some c /\
     caller c = Returned None (Some failure)) /\
  (forall schedule c, http_FetchIcons h b schedule = Some c ->
     (exists seen, seen `prefix_of` refs /\ submitted c = distinct seen) /\
     fetched c ⊆+ submitted c /\
     (forall m e, caller c = Returned m e ->
        m = None /\ e = Some failure /\ submitted c = distinct refs)).
Proof.
  intros Hb Hpre Hbad failure.
  assert (forall schedule c, http_FetchIcons h b schedule = Some c ->
     (exists seen, seen `prefix_of` refs /\ submitted c = distinct seen) /\
     fetched c ⊆+ submitted c /\
     (forall m e, caller c = Returned m e ->
        m = None /\ e = Some failure /\ submitted c = distinct refs)) as Hall.
  { intros schedule c He.
    destruct (scanned_exec _ _ _ _ He) as (visited&refs0&Hp0&Hat&Hsub&_).
    destruct (accounted_exec _ _ _ _ He) as (HA&_).
    unfold caller_at in Hat. rewrite Hb in Hat. split_and!.
    - exists refs0. split; [|done].
      destruct (caller c) as [rest|m e].
      + symmetry in Hat.
        exact (parses_before_failure _ _ _ _ _ _ _ _ Hp0 Hpre Hbad Hat).
      + destruct Hat as [(bad'&post'&err'&Heq&Hbad'&_)|(Heq&_)].
        * symmetry in Heq.
          exact (parses_before_failure _ _ _ _ _ _ _ _ Hp0 Hpre Hbad Heq).
        * rewrite <- Heq in Hp0.
          apply parses_app_inv in Hp0 as (r1&r2&_&_&Hp2).
          inversion Hp2 as [|? ? ? ? Hok]; subst. by rewrite Hbad in Hok.
    - rewrite <- HA. apply submseteq_inserts_r. done.
    - intros m e Hc. rewrite Hc in Hat.
      destruct Hat as [(bad'&post'&err'&Heq&Hbad'&->& ->)|(Heq&_)].
      + symmetry in Heq.
        destruct (parses_at_failure _ _ _ _ _ _ _ _ _ _ Hp0 Hpre Hbad Hbad' Heq)
          as (->&->&->).
        done.
      + rewrite <- Heq in Hp0.
        apply parses_app_inv in Hp0 as (r1&r2&_&_&Hp2).
        inversion Hp2 as [|? ? ? ? Hok]; subst. by rewrite Hbad in Hok. }
  split_and!; [| |done].
  - unfold LinkFetcher_FetchIcons. rewrite Hb. by eapply link_range_fail.
  - destruct (http_returns h b) as (schedule&c&m&e&He&Hc).
    exists schedule, c. split; [done|].
    destruct (Hall _ _ He) as (_&_&Hr). by destruct (Hr _ _ Hc) as (->&->&_).
Qed.

(** *** The empty bundle *)

Lemma idle_step a c c' : idle c -> step a c = Some c' -> idle c'.
Proof.
  intros (Hi0&Hf&Ha&Hsub&Hfet&Hc) Hs. unfold idle in *.
  step_cases Hs; try (rewrite Ha in Hi; done);
    try (destruct Hc; congruence).
  rewrite Hf. cbn. rewrite Hi0. split_and!; try done. by right.
Qed.

(** C8: on a bundle without services both fetchers return the empty
    map, which is a map and not nil, and no error; [HTTPFetcher] does so
    at its first step, and along every schedule no task is submitted and
    no URL requested. *)
Theorem empty_bundle l h b :
  Services b = [] ->
  link_FetchIcons l b = (Some ∅, None) /\
  (exists c, http_FetchIcons h b [caller_step] = Some c /\
     caller c = Returned (Some ∅) None) /\
  (forall schedule c, http_FetchIcons h b schedule = Some c ->
     requested c = [] /\ submitted c = [] /\
     parallel.active (run c) = [] /\
     forall m e, caller c = Returned m e -> m = Some ∅ /\ e = None).
Proof.
  intros Hb. split_and!.
  - unfold LinkFetcher_FetchIcons. by rewrite Hb.
  - unfold HTTPFetcher_FetchIcons, HTTPFetcher_enter. rewrite Hb. cbn.
    by eexists.
  - intros schedule c He.
    assert (idle c) as (_&_&Ha&Hsub&Hfet&Hc).
    { revert He. apply (exec_invariant idle); [apply idle_step|].
      unfold idle, HTTPFetcher_enter. rewrite Hb. cbn.
      split_and!; try done. by left. }
    unfold requested. rewrite Hfet. split_and!; try done.
    intros m e Hr. destruct Hc as [Hc|Hc]; rewrite Hc in Hr; [done|].
    by simplify_eq.
Qed.

(** *** Deduplication by path *)

(** C9: of two services with different raw charms whose references have
    the same path, as of all services with that path, the first visited
    decides: both fetchers treat them as one.  [LinkFetcher] has one
    entry under the path, made from the first reference with it;
    [HTTPFetcher] has submitted and fetched one task with that path when
    it returns, that of the first reference, and returns one entry
    under the path when no fetch failed. *)
Theorem dedup_by_path l h b pre s1 mid s2 post rpre r1 rmid r2 rpost :
  Services b = pre ++ s1 :: mid ++ s2 :: post ->
  Charm s1 <> Charm s2 ->
  parses pre rpre -> ParseReference (Charm s1) = ok r1 ->
  parses mid rmid -> ParseReference (Charm s2) = ok r2 ->
  parses post rpost ->
  Path r1 = Path r2 ->
  let p := Path r1 in
  let r0 := default r1 (first_with p rpre) in
  (exists ics, link_FetchIcons l b = (Some ics, None) /\
     ics !! p = Some (svg_link (escapeString (link_IconURL l r0))) /\
     length (filter (fun e => e.1 = p) (map_to_list ics)) = 1%nat) /\
  (forall schedule c m e,
     http_FetchIcons h b schedule = Some c -> caller c = Returned m e ->
     filter (fun r => Path r = p) (submitted c) = [r0] /\
     filter (fun r => Path r = p) (fetched c) = [r0] /\
     (parallel.failed (run c) = [] ->
      exists ics, m = Some ics /\ is_Some (ics !! p) /\
        length (filter (fun e => e.1 = p) (map_to_list ics)) = 1%nat)).
Proof.
  intros Hb _ Hpre H1 Hmid H2 Hpost Heq p r0.
  set (refs := rpre ++ r1 :: rmid ++ r2 :: rpost).
  assert (parses (Services b) refs) as Hp.
  { rewrite Hb. apply parses_app; [done|]. constructor; [done|].
    apply parses_app; [done|]. by constructor. }
  assert (first_with p refs = Some r0) as Hfirst.
  { unfold refs, r0. rewrite first_with_app.
    destruct (first_with p rpre); [done|]. cbn. by rewrite decide_True. }
  assert (p ∈ paths refs) as Hin by (apply first_with_is_Some; by eexists).
  split.
  - destruct (link_FetchIcons_ok l b refs Hp) as (ics&He&Hl).
    exists ics. split_and!; [done | by rewrite Hl, Hfirst |].
    apply one_entry_dom, elem_of_dom. rewrite Hl, Hfirst. by eexists.
  - intros schedule c m e He Hc.
    destruct (returned_all _ _ _ _ _ _ _ Hp He Hc) as (Hsub&Hfet&_).
    split_and!.
    + rewrite Hsub. by apply one_with_path.
    + apply Permutation_singleton_r.
      rewrite (filter_key_Permutation Path _ _ p Hfet).
      by rewrite (one_with_path _ _ _ Hfirst).
    + intros Hf.
      destruct (returned_dom _ _ _ _ _ _ _ Hp He Hc Hf) as (->&_&Hd).
      exists (icons c).
      assert (p ∈ dom (icons c)) as Hpd
        by (by rewrite Hd, elem_of_list_to_set).
      split_and!; [done | by apply elem_of_dom | by apply one_entry_dom].
Qed.

(** *** The icons of LinkFetcher *)

(** C7: for every path of a bundle whose charms all parse,
    [LinkFetcher.FetchIcons] has one entry, and it is this text: a line
    feed and four tabs, the opening [svg] tag with the xlink name space,
    a line feed and five tabs, an [image] tag of width and height 96
    whose [xlink:href] attribute holds, between double quotes,
    [escapeString] of the URL that [IconURL] gives for the first
    reference with that path, then a line feed, four tabs and the
    closing [svg] tag.  The escaped URL holds no reserved byte, the
    double quote among them, and reading its references back gives the
    URL. *)
Theorem link_icon_content l b refs p :
  parses (Services b) refs -> p ∈ paths refs ->
  exists ics r,
    link_FetchIcons l b = (Some ics, None) /\
    first_with p refs = Some r /\ r ∈ refs /\ Path r = p /\
    let url := link_IconURL l r in
    let q := String "034"%char EmptyString in
    let nl := String "010"%char EmptyString in
    let t := String "009"%char EmptyString in
    ics !! p =
      Some (list_byte_of_string
              (nl +:+ t +:+ t +:+ t +:+ t
               +:+ "<svg xmlns:xlink=" +:+ q
               +:+ "http://www.w3.org/1999/xlink" +:+ q +:+ ">"
               +:+ nl +:+ t +:+ t +:+ t +:+ t +:+ t
               +:+ "<image width=" +:+ q +:+ "96" +:+ q
               +:+ " height=" +:+ q +:+ "96" +:+ q
               +:+ " xlink:href=" +:+ q +:+ escapeString url +:+ q +:+ " />"
               +:+ nl +:+ t +:+ t +:+ t +:+ t +:+ "</svg>")) /\
    length (filter (fun e => e.1 = p) (map_to_list ics)) = 1%nat /\
    (forall x, x ∈ list_byte_of_string (escapeString url) ->
       ~ xml.reserved x) /\
    xml.UnescapeText (length (list_byte_of_string url))
      (list_byte_of_string (escapeString url)) = list_byte_of_string url.
Proof.
  intros Hp [r Hr]%first_with_is_Some.
  destruct (link_FetchIcons_ok l b refs Hp) as (ics&He&Hl).
  destruct (first_with_Some _ _ _ Hr) as [Hpath Hin].
  destruct (escapeString_escapes (link_IconURL l r)) as [Hclean Hback].
  exists ics, r. split_and!; try done.
  cbn zeta. split_and!; try done.
  - rewrite Hl, Hr. cbn [fmap option_fmap option_map]. unfold svg_link.
    generalize (escapeString (link_IconURL l r)). intros href.
    reflexivity.
  - apply one_entry_dom, elem_of_dom. rewrite Hl, Hr. by eexists.
Qed.

(** *** fetchIcon *)

(** C6 (amended): [fetchIcon] returns an error exactly when the GET fails
    in transport, or the status is not 200, or the body read fails; the
    error then wraps the cause or names the status, names the URL, and
    comes with no body.  Otherwise the whole body is returned. *)
Theorem fetchIcon_fails_iff h url cl earlier :
  let out := fetchIcon h url cl earlier in
  (is_Some out.2 <-> fetch_failure cl earlier url) /\
  (is_Some out.2 -> out.1 = None) /\
  (out.2 = None ->
   exists resp, Get cl earlier url = ok resp /\
     StatusCode resp = 200 /\ out.1 = Some (content (Body resp))) /\
  (forall cause, Get cl earlier url = fail cause ->
   exists format args, out.2 = Some (errgo_Notef cause format args) /\
     arg_string url ∈ args) /\
  (forall resp, Get cl earlier url = ok resp -> StatusCode resp <> 200 ->
   exists format, out.2 =
     Some (errgo_Newf format [arg_string url; arg_string (Status resp)])) /\
  (forall resp cause, Get cl earlier url = ok resp ->
   StatusCode resp = 200 -> read_error (Body resp) = Some cause ->
   exists format args, out.2 = Some (errgo_Notef cause format args) /\
     arg_string url ∈ args).
Proof using Type.
  clear ParseReference Path http_DefaultClient.
  cbn zeta. pose proof (fetchIcon_cases h url cl earlier) as Hc.
  unfold fetch_failure, http_StatusOK in *.
  destruct (Get cl earlier url) as [resp|err];
    [destruct (decide (StatusCode resp = 200)) as [Hok|Hne];
     [destruct (read_error (Body resp)) as [cause|] eqn:Hr|]|];
    rewrite Hc; cbn; split_and!; try naive_solver.
  all: intros; simplify_eq; do 2 eexists.
  all: split; [done | apply list_elem_of_here].
Qed.

(** *** Concurrency *)

(** C5: the runner of a call is made with limit 10 when [Concurrency] is
    zero (unset) or negative, and with [Concurrency] itself when it is
    positive; the limit is the call's for good. *)
Theorem default_concurrency h b schedule c :
  HTTPFetcher_FetchIcons ParseReference Path http_DefaultClient h b schedule
    = Some c ->
  (Concurrency h <= 0 ->
   concurrency c = 10 /\ parallel.limit (run c) = 10) /\
  (0 < Concurrency h ->
   concurrency c = Concurrency h /\
   parallel.limit (run c) = Concurrency h).
Proof.
  intros (_&_&Hc&Hl)%framed_exec. rewrite Hc, Hl. unfold local_concurrency.
  destruct (Z.leb_spec (Concurrency h) 0); split; intros; first [lia | done].
Qed.

(** C4: at every point of every schedule of a call, also after the
    caller has returned, the tasks inside [fetchIcon] and even the tasks
    the runner holds are no more than the limit, which is [Concurrency]
    when that is positive. *)
Theorem in_flight_capped h b schedule c :
  http_FetchIcons h b schedule = Some c ->
  Z.of_nat (in_flight c) <= local_concurrency h /\
  Z.of_nat (length (parallel.active (run c))) <= local_concurrency h /\
  (0 < Concurrency h -> Z.of_nat (in_flight c) <= Concurrency h).
Proof.
  intros He. pose proof (capped_exec _ _ _ _ He) as Hcap.
  apply framed_exec in He as (_&_&_&Hl).
  pose proof (in_flight_active c). unfold capped in Hcap. rewrite Hl in Hcap.
  split_and!; [lia | lia |].
  unfold local_concurrency in *.
  destruct (Z.leb_spec (Concurrency h) 0); lia.
Qed.

(** C10: along every schedule of a call the receiver is the one the call
    was made on, field for field; the default client and the default
    concurrency live in the locals [client] and [concurrency]. *)
Theorem receiver_unchanged h b schedule c :
  HTTPFetcher_FetchIcons ParseReference Path http_DefaultClient h b schedule
    = Some c ->
  receiver c = h /\
  Concurrency (receiver c) = Concurrency h /\
  Client (receiver c) = Client h /\
  IconURL (receiver c) = IconURL h /\
  client c = match Client h with
             | Some cl => cl
             | None => http_DefaultClient
             end /\
  concurrency c = (if Concurrency h <=? 0 then 10 else Concurrency h).
Proof.
  intros (Hr&Hcl&Hc&_)%framed_exec. by rewrite Hr.
Qed.

(** *** Further properties of LinkFetcher *)

Local Abbreviation by_path := (by_path Path).
Local Abbreviation fetched_from := (fetched_from Path http_DefaultClient).

(** The services parse, or there is a first one that does not. *)
Lemma parses_or_fails services :
  (exists refs, parses services refs) \/
  (exists pre bad post refs err,
     services = pre ++ bad :: post /\ parses pre refs /\
     ParseReference (Charm bad) = fail err).
Proof.
  induction services as [|s ss IH].
  - left. exists []. constructor.
  - destruct (ParseReference (Charm s)) as [r|err] eqn:Hs.
    + destruct IH as [(refs&Hp)|(pre&bad&post&refs&err&->&Hp&Hbad)].
      * left. exists (r :: refs). by constructor.
      * right. exists (s :: pre), bad, post, (r :: refs), err.
        split_and!; [done | by constructor | done].
    + right. exists [], s, ss, [], err. split_and!; [done | constructor | done].
Qed.

Lemma parses_not_failing pre bad post refs err refs' :
  parses pre refs -> ParseReference (Charm bad) = fail err ->
  ~ parses (pre ++ bad :: post) refs'.
Proof.
  intros _ Hbad (r1&r2&_&_&Hp2)%parses_app_inv.
  inversion Hp2 as [|? ? ? ? Hok]; subst. by rewrite Hbad in Hok.
Qed.

(** X1: [LinkFetcher.FetchIcons] returns a map exactly when every charm of
    the bundle parses, and an error exactly when it returns no map. *)
Theorem link_map_or_error l b :
  (is_Some (link_FetchIcons l b).1 <-> exists refs, parses (Services b) refs) /\
  ((link_FetchIcons l b).1 = None <-> is_Some (link_FetchIcons l b).2).
Proof.
  destruct (parses_or_fails (Services b))
    as [(refs&Hp)|(pre&bad&post&refs&err&Hb&Hp&Hbad)].
  - destruct (link_FetchIcons_ok l b refs Hp) as (ics&->&_). cbn. split.
    + split; [by exists refs | by eexists].
    + split; [done | by intros [? ?]].
  - unfold LinkFetcher_FetchIcons. rewrite Hb.
    rewrite (link_range_fail l pre bad post refs err ∅ ∅ Hp Hbad). cbn. split.
    + split; [by intros [? ?]|]. intros [refs' Hp'].
      by destruct (parses_not_failing _ _ _ _ _ _ Hp Hbad Hp').
    + split; [by eexists | done].
Qed.

Lemma link_range_repeat l pre s post af ics :
  (exists x, x ∈ pre /\
     (Charm x = Charm s \/
      exists rx r, ParseReference (Charm x) = ok rx /\
        ParseReference (Charm s) = ok r /\ Path rx = Path r)) \/
  (exists r, ParseReference (Charm s) = ok r /\
     default false (af !! Path r) = true) ->
  link_range l (pre ++ s :: post) af ics = link_range l (pre ++ post) af ics.
Proof.
  revert af ics. induction pre as [|x0 pre IH]; intros af ics Hyp.
  - destruct Hyp as [(x&Hx&_)|(r&Hs&Haf)]; [by apply elem_of_nil in Hx|].
    cbn. by rewrite Hs, Haf.
  - cbn. destruct (ParseReference (Charm x0)) as [r0|err0] eqn:H0; [|done].
    assert (forall af' : gmap string bool,
              default false (af' !! Path r0) = true ->
              (forall p, default false (af !! p) = true ->
                         default false (af' !! p) = true) ->
              (exists x, x ∈ pre /\
                 (Charm x = Charm s \/
                  exists rx r, ParseReference (Charm x) = ok rx /\
                    ParseReference (Charm s) = ok r /\ Path rx = Path r)) \/
              (exists r, ParseReference (Charm s) = ok r /\
                 default false (af' !! Path r) = true)) as Hnext.
    { intros af' H0' Hmono.
      destruct Hyp as [(x&[->|Hx]%elem_of_cons&Hcase)|(r&Hs&Haf)].
      - right. destruct Hcase as [Heq|(rx&r&Hx&Hs&Hpath)].
        + exists r0. by rewrite <- Heq.
        + exists r. split; [done|]. rewrite H0 in Hx. simplify_eq.
          by rewrite <- Hpath.
      - left. by exists x.
      - right. exists r. split; [done|]. by apply Hmono. }
    destruct (default false (af !! Path r0)) eqn:Haf0; cbn.
    + apply IH, Hnext; done.
    + apply IH, Hnext.
      * by rewrite lookup_insert_eq.
      * intros p Hp. destruct (decide (Path r0 = p)) as [<-|Hne].
        -- by rewrite lookup_insert_eq.
        -- by rewrite lookup_insert_ne.
Qed.

(** X2: a service whose raw charm, or whose parsed path, is that of a
    service visited before it changes nothing in what
    [LinkFetcher.FetchIcons] returns, map or error. *)
Theorem link_repeat_ignored l b b' pre x s post :
  Services b = pre ++ post -> Services b' = pre ++ s :: post ->
  x ∈ pre ->
  (Charm x = Charm s \/
   exists rx r, ParseReference (Charm x) = ok rx /\
     ParseReference (Charm s) = ok r /\ Path rx = Path r) ->
  link_FetchIcons l b' = link_FetchIcons l b.
Proof.
  intros Hb Hb' Hx Hcase. unfold LinkFetcher_FetchIcons. rewrite Hb, Hb'.
  apply link_range_repeat. left. by exists x.
Qed.

Lemma parses_Permutation services services' refs :
  services ≡ₚ services' -> parses services refs ->
  exists refs', parses services' refs' /\ refs ≡ₚ refs'.
Proof.
  intros Hperm. revert refs.
  induction Hperm as [|s l l' _ IH|s s' l|l l' l'' _ IH1 _ IH2]; intros refs Hp.
  - inversion Hp; subst. by exists [].
  - inversion Hp as [|? r ? rs Hs Hrest]; subst.
    destruct (IH _ Hrest) as (rs'&Hp'&Hperm').
    exists (r :: rs'). split; [by constructor | by constructor].
  - inversion Hp as [|? r ? rs Hs Hrest]; subst.
    inversion Hrest as [|? r' ? rs' Hs' Hrest']; subst.
    exists (r' :: r :: rs'). split; [by repeat constructor | by constructor].
  - destruct (IH1 _ Hp) as (r1&Hp1&Hperm1).
    destruct (IH2 _ Hp1) as (r2&Hp2&Hperm2).
    exists r2. split; [done | by etrans].
Qed.

(** X3: whatever the order in which the [range] loop visits the services
    of a bundle whose charms all parse, [LinkFetcher.FetchIcons] returns
    a map with the same keys; it returns the same map when [IconURL]
    gives one URL to references of one path. *)
Theorem link_any_order l b b' refs :
  Services b ≡ₚ Services b' -> parses (Services b) refs ->
  exists ics ics',
    link_FetchIcons l b = (Some ics, None) /\
    link_FetchIcons l b' = (Some ics', None) /\
    dom ics = dom ics' /\
    (by_path (link_IconURL l) refs -> ics = ics').
Proof.
  intros Hperm Hp.
  destruct (parses_Permutation _ _ _ Hperm Hp) as (refs'&Hp'&Hr).
  destruct (link_FetchIcons_ok l b refs Hp) as (ics&He&Hl).
  destruct (link_FetchIcons_ok l b' refs' Hp') as (ics'&He'&Hl').
  exists ics, ics'. split_and!; [done | done | |].
  - rewrite (dom_first_with _ _ _ Hl), (dom_first_with _ _ _ Hl').
    apply set_eq. intros p. rewrite !elem_of_list_to_set.
    unfold paths. by rewrite Hr.
  - intros Hby. apply map_eq. intros p. rewrite Hl, Hl'.
    destruct (first_with p refs) as [r|] eqn:Hf;
      destruct (first_with p refs') as [r'|] eqn:Hf'; cbn.
    + destruct (first_with_Some _ _ _ Hf) as [Hpr Hin].
      destruct (first_with_Some _ _ _ Hf') as [Hpr' Hin'].
      rewrite (Hby r r'); [done | done | by rewrite Hr |].
      by rewrite Hpr, Hpr'.
    + assert (is_Some (first_with p refs')) as [? Hs]; [|by rewrite Hs in Hf'].
      apply first_with_is_Some. unfold paths. rewrite <- Hr.
      apply first_with_is_Some. by eexists.
    + assert (is_Some (first_with p refs)) as [? Hs]; [|by rewrite Hs in Hf].
      apply first_with_is_Some. unfold paths. rewrite Hr.
      apply first_with_is_Some. by eexists.
    + done.
Qed.

(** *** Further properties of HTTPFetcher *)

Lemma exec_measure schedule c c' :
  exec schedule c = Some c' ->
  (length schedule + measure c' <= measure c)%nat.
Proof.
  revert c. induction schedule as [|a schedule IH]; intros c He; cbn in He.
  - simplify_eq. cbn. lia.
  - destruct (step a c) as [c1|] eqn:Hs; [|done]. cbn in He.
    pose proof (step_measure _ _ _ Hs). pose proof (IH _ He). cbn. lia.
Qed.

(** X4: a call neither runs for ever nor gets stuck.  A schedule of a
    call on a bundle of n services has at most 3n+1 actions, and from
    wherever a schedule has led the call, it can go on to its return. *)
Theorem FetchIcons_terminates h b schedule c :
  HTTPFetcher_FetchIcons ParseReference Path http_DefaultClient h b schedule
    = Some c ->
  (length schedule <= 3 * length (Services b) + 1)%nat /\
  exists more c' m e,
    http_FetchIcons h b (schedule ++ more) = Some c' /\
    caller c' = Returned m e.
Proof.
  intros He. split; [|by apply (http_returns_from h b schedule c)].
  apply exec_measure in He. unfold measure at 2 in He. cbn in He. lia.
Qed.

(** X5: a map that was returned is never written to again.  When the
    caller has returned a map, it is the map of icons as it stands, no
    task is left, and no action of the call is enabled. *)
Theorem returned_map_final h b schedule c m e :
  http_FetchIcons h b schedule = Some c -> caller c = Returned (Some m) e ->
  m = icons c /\ e = None /\ parallel.active (run c) = [] /\
  forall a, step a c = None.
Proof.
  intros He Hc.
  destruct (scanned_exec _ _ _ _ He) as (visited&refs&_&Hat&_).
  unfold caller_at in Hat. rewrite Hc in Hat.
  destruct Hat as [(?&?&?&_&_&?&_)|(_&Hact&->&Hm)]; [done|].
  destruct (head (parallel.failed (run c))); [done|]. simplify_eq.
  split_and!; try done.
  intros [|i|i]; cbn; unfold caller_next, task_next_fetch, task_next_finish.
  - by rewrite Hc.
  - by rewrite Hact.
  - by rewrite Hact.
Qed.

Lemma length_firsts seen refs : (length (firsts seen refs) <= length refs)%nat.
Proof.
  revert seen. induction refs as [|r refs IH]; intros seen; cbn; [done|].
  case_decide; cbn; [pose proof (IH seen) | pose proof (IH ({[Path r]} ∪ seen))];
    lia.
Qed.

Lemma visited_prefix b c visited :
  caller_at b c visited -> exists rest, Services b = visited ++ rest.
Proof.
  unfold caller_at. destruct (caller c) as [rest|m e].
  - intros ->. by eexists.
  - intros [(bad&post&err&->&_)|(->&_)]; [by eexists|].
    exists []. by rewrite app_nil_r.
Qed.

(** X6: whatever parses or fails, a call asks for the icon of a path at
    most once, asks for no more URLs than the bundle has services, and
    only for references parsed from services of the bundle. *)
Theorem requests_bounded h b schedule c :
  http_FetchIcons h b schedule = Some c ->
  NoDup (paths (fetched c)) /\
  (length (requested c) <= length (Services b))%nat /\
  forall r, r ∈ fetched c ->
    exists s, s ∈ Services b /\ ParseReference (Charm s) = ok r.
Proof.
  intros He.
  destruct (scanned_exec _ _ _ _ He) as (visited&refs&Hp&Hat&Hsub&_).
  destruct (accounted_exec _ _ _ _ He) as (HA&_).
  destruct (visited_prefix _ _ _ Hat) as (rest&Hb).
  split_and!.
  - assert (NoDup (Path <$> (fetched c ++ spawned c))) as Hnd.
    { rewrite HA, Hsub. apply NoDup_paths_firsts. }
    rewrite fmap_app in Hnd.
    by apply NoDup_app in Hnd as (?&_).
  - unfold requested. rewrite length_fmap.
    assert (length (fetched c) <= length (submitted c))%nat.
    { rewrite <- HA, length_app. lia. }
    pose proof (length_firsts ∅ refs). pose proof (Forall2_length _ _ _ Hp).
    rewrite Hb, length_app. rewrite Hsub in *. unfold distinct in *. lia.
  - intros r Hr.
    assert (r ∈ submitted c) as Hin.
    { rewrite <- HA. apply elem_of_app. by left. }
    rewrite Hsub in Hin. apply elem_of_firsts in Hin as [_ Hf].
    apply first_with_Some in Hf as [_ Hin].
    apply list_elem_of_lookup in Hin as [i Hi].
    destruct (Forall2_lookup_r _ _ _ _ _ Hp Hi) as (s&Hs&Hok).
    exists s. split; [|done]. rewrite Hb. apply elem_of_app. left.
    by eapply list_elem_of_lookup_2.
Qed.

(** X7: a call that has returned has returned one of a map and an
    error, and it is the error exactly when a charm of the bundle does
    not parse or a fetch task has failed. *)
Theorem http_map_or_error h b schedule c m e :
  http_FetchIcons h b schedule = Some c -> caller c = Returned m e ->
  (m = None <-> is_Some e) /\
  (is_Some e <->
   ~ (exists refs, parses (Services b) refs) \/
   parallel.failed (run c) <> []).
Proof.
  intros He Hc.
  destruct (scanned_exec _ _ _ _ He) as (visited&refs&Hp&Hat&_).
  unfold caller_at in Hat. rewrite Hc in Hat.
  destruct Hat as [(bad&post&err&Hb&Hbad&->&->)|(Hb&_&->&->)].
  - split; [split; [by eexists | done]|].
    split; [|by eexists]. intros _. left. intros [refs' Hp'].
    rewrite Hb in Hp'. by destruct (parses_not_failing _ _ _ _ _ _ Hp Hbad Hp').
  - destruct (parallel.failed (run c)) as [|err errs]; cbn.
    + split; [split; [done | by intros [? ?]]|].
      split; [by intros [? ?]|]. intros [Hn|?]; [|done].
      destruct Hn. exists refs. by rewrite Hb.
    + split; [split; [by eexists | done]|]. split; [by right | by eexists].
Qed.

(** *** The icons of HTTPFetcher *)

Lemma fetchIcon_body h url cl earlier icon :
  fetchIcon h url cl earlier = (icon, None) ->
  exists resp, Get cl earlier url = ok resp /\ StatusCode resp = 200 /\
    read_error (Body resp) = None /\ icon = Some (content (Body resp)).
Proof.
  pose proof (fetchIcon_cases h url cl earlier) as Hc.
  destruct (Get cl earlier url) as [resp|err]; [|by rewrite Hc].
  destruct (decide (StatusCode resp = http_StatusOK)) as [Hok|Hne];
    [|by rewrite Hc].
  destruct (read_error (Body resp)) as [cause|] eqn:Hr; rewrite Hc; [done|].
  intros ?; simplify_eq. by exists resp.
Qed.

Lemma fetched_from_step h a c c' :
  framed h c -> accounted c -> fetched_from h c -> step a c = Some c' ->
  fetched_from h c'.
Proof.
  intros (Hrecv&Hclient&_) (_&HB&_) [HT HI] Hs. unfold fetched_from in *.
  step_cases Hs; try done.
  - split.
    + apply Forall_app. split; [done|]. by repeat constructor.
    + intros p v Hv. destruct (HI p v Hv) as (r&earlier&Hin&?&?).
      exists r, earlier. split_and!; try done. apply elem_of_app. by left.
  - split; [|done].
    destruct (lookup_split _ _ _ Hi) as (l1&l2&Hl&Hins&_).
    rewrite Hins. rewrite Hl in HT.
    apply Forall_app in HT as [HT1 HT2]. apply Forall_cons in HT2 as [_ HT2].
    apply Forall_app. split; [done|]. constructor; [|done]. cbn.
    intros out Hout. injection Hout as <-. exists (requested c).
    by rewrite Hrecv, Hclient.
  - split; [|done].
    destruct (lookup_split _ _ _ Hi) as (l1&l2&Hl&_&Hdel).
    rewrite Hdel. rewrite Hl in HT.
    apply Forall_app in HT as [HT1 HT2]. apply Forall_cons in HT2 as [_ HT2].
    apply Forall_app. by split.
  - destruct (lookup_split _ _ _ Hi) as (l1&l2&Hl&_&Hdel).
    rewrite Hdel. rewrite Hl in HT, HB.
    apply Forall_app in HT as [HT1 HT2]. apply Forall_cons in HT2 as [HT0 HT2].
    apply Forall_app in HB as [_ HB2].
    apply Forall_cons in HB2 as [[Hpath Hin] _].
    split; [apply Forall_app; by split|].
    intros p v. destruct (decide (task_path t = p)) as [<-|Hne].
    + rewrite lookup_insert_eq. intros ?; simplify_eq.
      destruct (HT0 _ Hprog) as (earlier&Hout). symmetry in Hout.
      destruct (fetchIcon_body _ _ _ _ _ Hout) as (resp&_&_&_&->).
      exists (task_charmId t), earlier. by split_and!.
    + rewrite lookup_insert_ne by done. apply HI.
Qed.

Lemma fetched_from_exec h b schedule c :
  http_FetchIcons h b schedule = Some c -> fetched_from h c.
Proof.
  intros He.
  enough (framed h c /\ accounted c /\ fetched_from h c) as (_&_&?) by done.
  revert He.
  apply (exec_invariant
           (fun c => framed h c /\ accounted c /\ fetched_from h c)).
  - intros a c1 c2 (Hfr&Hac&Hff) Hstep. split_and!.
    + by eapply framed_step.
    + by eapply accounted_step.
    + by eapply fetched_from_step.
  - split_and!; [apply framed_enter | apply accounted_enter |].
    split; [constructor|]. intros p v Hv. cbn in Hv.
    by rewrite lookup_empty in Hv.
Qed.

Lemma returned_icon_body h b refs schedule c m e p r :
  parses (Services b) refs ->
  http_FetchIcons h b schedule = Some c -> caller c = Returned (Some m) e ->
  first_with p refs = Some r ->
  exists earlier resp,
    Get (local_client h) earlier (IconURL h r) = ok resp /\
    StatusCode resp = 200 /\ read_error (Body resp) = None /\
    m !! p = Some (content (Body resp)).
Proof.
  intros Hp He Hc Hf.
  destruct (returned_all _ _ _ _ _ _ _ Hp He Hc) as (Hsub&_&_&_&Hm).
  assert (parallel.failed (run c) = []) as Hnil.
  { destruct (parallel.failed (run c)); [done | by cbn in Hm]. }
  destruct (returned_dom _ _ _ _ _ _ _ Hp He Hc Hnil) as (Hmc&_&Hd).
  simplify_eq.
  assert (p ∈ dom (icons c)) as [v Hv]%elem_of_dom.
  { rewrite Hd, elem_of_list_to_set. apply first_with_is_Some. by eexists. }
  destruct (fetched_from_exec _ _ _ _ He) as [_ HI].
  destruct (HI p v Hv) as (r'&earlier&Hin&Hpath&Hout).
  rewrite Hsub in Hin. apply elem_of_firsts in Hin as [_ Hf'].
  rewrite Hpath, Hf in Hf'. simplify_eq.
  destruct (fetchIcon_body _ _ _ _ _ Hout) as (resp&Hg&Hs&Hr&Hbody).
  simplify_eq. by exists earlier, resp.
Qed.


(** *** Schedules do not matter to a stateless client *)

(** The tasks submitted at any point are of first references of the
    whole bundle. *)
Lemma submitted_first h b refs schedule c r :
  parses (Services b) refs ->
  http_FetchIcons h b schedule = Some c -> r ∈ submitted c ->
  first_with (Path r) refs = Some r.
Proof.
  intros Hp He Hin.
  destruct (scanned_exec _ _ _ _ He) as (visited&refs0&Hp0&Hat&Hsub&_).
  destruct (visited_prefix _ _ _ Hat) as (rest&Hb).
  rewrite Hb in Hp. apply parses_app_inv in Hp as (r1&r2&->&Hp1&_).
  rewrite (parses_fun _ _ _ Hp1 Hp0).
  rewrite Hsub in Hin. apply elem_of_firsts in Hin as [_ Hf].
  by rewrite first_with_app, Hf.
Qed.

Lemma served_step h a c c' :
  (forall t, t ∈ parallel.active (run c) -> forall earlier,
     ~ fetch_failure (local_client h) earlier (IconURL h (task_charmId t))) ->
  framed h c -> all_served c -> step a c = Some c' -> all_served c'.
Proof.
  intros Hcl (Hrecv&Hclient&_) [Hf Ht] Hs. unfold all_served in *.
  step_cases Hs; try done.
  - split; [done|]. apply Forall_app. split; [done|]. by repeat constructor.
  - split; [done|].
    destruct (lookup_split _ _ _ Hi) as (l1&l2&Hl&Hins&_).
    rewrite Hins. rewrite Hl in Ht.
    apply Forall_app in Ht as [Ht1 Ht2]. apply Forall_cons in Ht2 as [_ Ht2].
    apply Forall_app. split; [done|]. constructor; [|done].
    cbn. intros icon err Heq. injection Heq as Heq.
    apply (Hcl t (list_elem_of_lookup_2 _ _ _ Hi) (requested c)).
    apply fetchIcon_error_iff with (h := h).
    rewrite <- Hclient, <- Hrecv, Heq. by eexists.
  - exfalso. rewrite Forall_forall in Ht.
    eapply (Ht t); [by eapply list_elem_of_lookup_2 | done].
  - split; [by rewrite Hf|].
    destruct (lookup_split _ _ _ Hi) as (l1&l2&Hl&_&Hdel).
    rewrite Hdel. rewrite Hl in Ht.
    apply Forall_app in Ht as [Ht1 Ht2]. apply Forall_cons in Ht2 as [_ Ht2].
    apply Forall_app. by split.
Qed.

Lemma served_exec h b refs schedule c :
  parses (Services b) refs ->
  (forall r earlier, r ∈ distinct refs ->
     ~ fetch_failure (local_client h) earlier (IconURL h r)) ->
  http_FetchIcons h b schedule = Some c -> parallel.failed (run c) = [].
Proof.
  intros Hp Hcl He.
  enough (all_served c) as [? _] by done.
  remember (HTTPFetcher_enter http_DefaultClient h b) as c0 eqn:Hc0.
  assert (exists s0, http_FetchIcons h b s0 = Some c0 /\ all_served c0)
    as Hinit.
  { exists []. subst c0. split; [done|]. by split; [|constructor]. }
  unfold HTTPFetcher_FetchIcons in He. rewrite <- Hc0 in He. clear Hc0.
  revert c0 Hinit He.
  induction schedule as [|a schedule IH]; intros c0 (s0&He0&Hs0) He.
  - cbn in He. by simplify_eq.
  - cbn in He. destruct (step a c0) as [c1|] eqn:Hstep; [|done]. cbn in He.
    apply (IH c1); [|done]. exists (s0 ++ [a]). split.
    + unfold HTTPFetcher_FetchIcons in *. rewrite exec_app, He0. cbn.
      by rewrite Hstep.
    + eapply (served_step h a c0); [|by eapply framed_exec|done|done].
      intros t Ht earlier. apply Hcl.
      destruct (accounted_exec _ _ _ _ He0) as (_&HB&_).
      rewrite Forall_forall in HB. destruct (HB t Ht) as [_ Hin].
      eapply first_with_elem_of_distinct.
      by eapply submitted_first.
Qed.

(** X9: with a client whose replies do not depend on the requests made
    before, the interleaving of the tasks does not matter: when the call
    on a bundle whose charms all parse has returned a map under one
    schedule, it returns that map under every schedule that returns. *)
Theorem stateless_schedule_independent h b refs s1 c1 m1 e1 s2 c2 m2 e2 :
  stateless (local_client h) -> parses (Services b) refs ->
  http_FetchIcons h b s1 = Some c1 -> caller c1 = Returned (Some m1) e1 ->
  http_FetchIcons h b s2 = Some c2 -> caller c2 = Returned m2 e2 ->
  m2 = Some m1 /\ e2 = None.
Proof.
  intros Hst Hp He1 Hc1 He2 Hc2.
  assert (forall r earlier, r ∈ distinct refs ->
            ~ fetch_failure (local_client h) earlier (IconURL h r)) as Hcl.
  { intros r earlier Hin. apply elem_of_firsts in Hin as [_ Hf].
    destruct (returned_icon_body h b refs s1 c1 m1 e1 _ r
                Hp He1 Hc1 Hf) as (earlier1&resp&Hg&Hs&Hr&_).
    unfold fetch_failure. rewrite (Hst earlier earlier1), Hg.
    intros [?|[? ?]]; [done | by rewrite Hr in *]. }
  pose proof (served_exec _ _ _ _ _ Hp Hcl He2) as Hnil.
  destruct (returned_dom _ _ _ _ _ _ _ Hp He2 Hc2 Hnil) as (->&->&Hd2).
  split; [|done]. f_equal. apply map_eq. intros p.
  destruct (first_with p refs) as [r|] eqn:Hf.
  - destruct (returned_icon_body h b refs s1 c1 m1 e1 p r
                Hp He1 Hc1 Hf) as (x1&resp1&Hg1&_&_&->).
    destruct (returned_icon_body h b refs s2 c2 (icons c2) None
                p r Hp He2 Hc2 Hf) as (x2&resp2&Hg2&_&_&->).
    rewrite (Hst x2 x1), Hg1 in Hg2. by simplify_eq.
  - assert (p ∉ paths refs) as Hnot.
    { intros Hin%first_with_is_Some. rewrite Hf in Hin. by destruct Hin. }
    pose proof (served_exec _ _ _ _ _ Hp Hcl He1) as Hnil1.
    destruct (returned_dom _ _ _ _ _ _ _ Hp He1 Hc1 Hnil1) as (Hm1&_&Hd1).
    injection Hm1 as ->.
    rewrite (not_elem_of_dom_1 (icons c2) p), (not_elem_of_dom_1 (icons c1) p);
      [done | |]; rewrite ?Hd1, ?Hd2, elem_of_list_to_set; done.
Qed.

(** *** Concurrency 1 *)

Lemma short_split {A} (l1 l2 : list A) x :
  (length (l1 ++ x :: l2) <= 1)%nat -> l1 = [] /\ l2 = [].
Proof.
  rewrite length_app. cbn. intros Hlen.
  destruct l1; [|cbn in Hlen; lia]. destruct l2; [done | cbn in Hlen; lia].
Qed.

Lemma in_order_step a c c' : in_order c -> step a c = Some c' -> in_order c'.
Proof.
  intros (Hlim&Hlen&ended&Hsub&Hfet) Hs. unfold in_order in *.
  step_cases Hs; try (split_and!; [done | done | by exists ended]).
  - apply Z.ltb_lt in Hroom. rewrite Hlim in Hroom.
    destruct (parallel.active (run c)) as [|? ?]; [|cbn in Hroom; lia].
    rewrite filter_nil in Hfet. cbn in Hsub, Hfet.
    rewrite app_nil_r in Hsub, Hfet.
    split_and!; [done | cbn; lia |]. exists ended.
    rewrite app_nil_l, filter_cons_False, filter_nil by done. cbn.
    by rewrite Hsub, Hfet, app_nil_r.
  - destruct (lookup_split _ _ _ Hi) as (l1&l2&Hl&Hins&_).
    rewrite Hins. rewrite Hl in Hlen, Hsub, Hfet.
    destruct (short_split _ _ _ Hlen) as [-> ->].
    rewrite app_nil_l in *.
    rewrite filter_cons_False, filter_nil in Hfet
      by (unfold is_fetching; by rewrite Hprog).
    cbn in Hsub, Hfet. rewrite app_nil_r in Hfet.
    split_and!; [done | cbn; lia |]. exists ended.
    rewrite filter_cons_True, filter_nil by done. cbn.
    by rewrite Hsub, Hfet.
  - destruct (lookup_split _ _ _ Hi) as (l1&l2&Hl&_&Hdel).
    rewrite Hdel. rewrite Hl in Hlen, Hsub, Hfet.
    destruct (short_split _ _ _ Hlen) as [-> ->].
    rewrite app_nil_l in *.
    rewrite filter_cons_True, filter_nil in Hfet
      by (unfold is_fetching; by rewrite Hprog).
    cbn in Hsub, Hfet.
    split_and!; [done | cbn; lia |]. exists (ended ++ [task_charmId t]).
    rewrite filter_nil. cbn. by rewrite !app_nil_r.
  - destruct (lookup_split _ _ _ Hi) as (l1&l2&Hl&_&Hdel).
    rewrite Hdel. rewrite Hl in Hlen, Hsub, Hfet.
    destruct (short_split _ _ _ Hlen) as [-> ->].
    rewrite app_nil_l in *.
    rewrite filter_cons_True, filter_nil in Hfet
      by (unfold is_fetching; by rewrite Hprog).
    cbn in Hsub, Hfet.
    split_and!; [done | cbn; lia |]. exists (ended ++ [task_charmId t]).
    rewrite filter_nil. cbn. by rewrite !app_nil_r.
Qed.

(** X10: with [Concurrency] 1 the call is synchronous in the order of the
    loop: at most one task is active at any point, and the icons asked
    for so far are those of the tasks submitted first, asked in the
    order of submission. *)
Theorem concurrency_one_in_order h b schedule c :
  Concurrency h = 1 ->
  http_FetchIcons h b schedule = Some c ->
  (length (parallel.active (run c)) <= 1)%nat /\
  fetched c `prefix_of` submitted c /\
  requested c `prefix_of` (IconURL h <$> submitted c).
Proof.
  intros Hone He.
  pose proof (framed_exec _ _ _ _ He) as (Hrecv&_).
  assert (in_order c) as (_&Hlen&ended&Hsub&Hfet).
  { revert He. apply (exec_invariant in_order); [apply in_order_step|].
    unfold in_order. cbn. unfold local_concurrency. rewrite Hone. cbn.
    split_and!; [done | lia |]. by exists []. }
  assert (fetched c `prefix_of` submitted c) as Hpre.
  { rewrite Hsub, Hfet.
    destruct (parallel.active (run c)) as [|t [|? ?]]; [| |cbn in Hlen; lia].
    - done.
    - destruct (is_fetching t) eqn:Hft.
      + by rewrite filter_cons_True.
      + rewrite filter_cons_False by (by rewrite Hft). cbn.
        rewrite app_nil_r. by apply prefix_app_r. }
  split_and!; [done | done |].
  unfold requested. rewrite Hrecv.
  destruct Hpre as [k ->]. rewrite fmap_app. by apply prefix_app_r.
Qed.

(** *** Icons are written once *)

Local Abbreviation failed_from := (failed_from http_DefaultClient).

Lemma write_once_step b a c c' :
  scanned b c -> accounted c -> write_once c -> step a c = Some c' ->
  write_once c'.
Proof.
  intros (visited&refs&_&_&Hsub&Haf) (_&HB&HC&_) [Hnd Hnone] Hs.
  unfold write_once in *. rewrite Forall_forall in HB.
  step_cases Hs; try done.
  - assert (Path charmId ∉ paths (submitted c)) as Hnew.
    { rewrite Hsub, elem_of_paths_distinct. intros Hin%Haf.
      by rewrite Hin in Hseen. }
    split.
    + rewrite fmap_app. apply NoDup_app. split_and!; [done | |].
      * intros p Hp Hp'. cbn in Hp'. apply list_elem_of_singleton in Hp'.
        apply list_elem_of_fmap in Hp as (t&Hpt&Ht).
        destruct (HB t Ht) as [Hpath Hin]. apply Hnew.
        rewrite <- Hp', Hpt, Hpath. by apply list_elem_of_fmap_2.
      * apply NoDup_singleton.
    + intros t [Ht|Ht%list_elem_of_singleton]%elem_of_app; [by apply Hnone|].
      subst t. cbn. destruct (icons c !! Path charmId) eqn:Hic; [|done].
      destruct Hnew. apply HC. by eexists.
  - destruct (lookup_split _ _ _ Hi) as (l1&l2&Hl&Hins&_).
    rewrite Hins. rewrite Hl in Hnd, Hnone. split.
    + by rewrite fmap_app, fmap_cons in *.
    + intros t' [?|[Heq|?]%elem_of_cons]%elem_of_app; try subst t'; cbn;
        apply Hnone; rewrite elem_of_app, elem_of_cons; auto.
  - destruct (lookup_split _ _ _ Hi) as (l1&l2&Hl&_&Hdel).
    rewrite Hdel. rewrite Hl in Hnd, Hnone. split.
    + rewrite fmap_app, fmap_cons in *.
      apply NoDup_app in Hnd as (?&Hd&[_ ?]%NoDup_cons).
      apply NoDup_app. split_and!; [done | | done].
      intros p Hp Hp'. apply (Hd p Hp). by right.
    + intros t' [?|?]%elem_of_app; apply Hnone;
        rewrite elem_of_app, elem_of_cons; auto.
  - destruct (lookup_split _ _ _ Hi) as (l1&l2&Hl&_&Hdel).
    rewrite Hdel. rewrite Hl in Hnd, Hnone.
    rewrite fmap_app, fmap_cons in Hnd.
    apply NoDup_app in Hnd as (Hn1&Hd&[Hn0 Hn2]%NoDup_cons). split.
    + rewrite fmap_app. apply NoDup_app. split_and!; [done | | done].
      intros p Hp Hp'. apply (Hd p Hp). by right.
    + intros t' Ht'.
      assert (task_path t' <> task_path t) as Hne.
      { apply elem_of_app in Ht' as [Ht'|Ht']; intros Heq.
        - apply (Hd (task_path t')); [by apply list_elem_of_fmap_2|].
          rewrite Heq. by left.
        - apply Hn0. rewrite <- Heq. by apply list_elem_of_fmap_2. }
      rewrite lookup_insert_ne by done. apply Hnone.
      apply elem_of_app in Ht' as [?|?]; rewrite elem_of_app, elem_of_cons;
        auto.
Qed.

Lemma write_once_exec h b schedule c :
  http_FetchIcons h b schedule = Some c -> write_once c.
Proof.
  intros He.
  enough (scanned b c /\ accounted c /\ write_once c) as (_&_&?) by done.
  revert He.
  apply (exec_invariant
           (fun c => scanned b c /\ accounted c /\ write_once c)).
  - intros a c1 c2 (Hsc&Hac&Hw) Hstep. split_and!.
    + by eapply scanned_step.
    + by eapply accounted_step.
    + by eapply write_once_step.
  - split_and!; [apply scanned_enter | apply accounted_enter |].
    split; [constructor|]. by intros t ?%elem_of_nil.
Qed.

Lemma grows_step a c c' :
  write_once c -> step a c = Some c' ->
  icons c ⊆ icons c' /\ submitted c `prefix_of` submitted c' /\
  fetched c `prefix_of` fetched c'.
Proof.
  intros [_ Hnone] Hs. step_cases Hs; split_and!; try done;
    try (by apply prefix_app_r).
  apply insert_subseteq, Hnone. by eapply list_elem_of_lookup_2.
Qed.

(** X11: nothing a call has done is undone as it goes on: an icon stored
    stays stored as it is, no key being written twice, and the tasks
    submitted and the fetches made stay, in their order. *)
Theorem FetchIcons_grows h b schedule more c c' :
  HTTPFetcher_FetchIcons ParseReference Path http_DefaultClient h b schedule
    = Some c ->
  http_FetchIcons h b (schedule ++ more) = Some c' ->
  icons c ⊆ icons c' /\ submitted c `prefix_of` submitted c' /\
  fetched c `prefix_of` fetched c'.
Proof.
  revert schedule c. induction more as [|a more IH]; intros schedule c He He'.
  - rewrite app_nil_r, He in He'. by simplify_eq.
  - assert (exists c1, step a c = Some c1 /\
              http_FetchIcons h b ((schedule ++ [a]) ++ more) = Some c')
      as (c1&Hs&He1).
    { unfold HTTPFetcher_FetchIcons in *.
      rewrite exec_app, He in He'. cbn in He'.
      destruct (step a c) as [c1|] eqn:Hs; [|done]. exists c1.
      split; [done|]. rewrite !exec_app, He. cbn. by rewrite Hs. }
    assert (http_FetchIcons h b (schedule ++ [a]) = Some c1) as Hc1.
    { unfold HTTPFetcher_FetchIcons in *. rewrite exec_app, He. cbn.
      by rewrite Hs. }
    destruct (grows_step _ _ _ (write_once_exec _ _ _ _ He) Hs)
      as (Hi&Hsub&Hfet).
    destruct (IH _ _ Hc1 He1) as (Hi'&Hsub'&Hfet').
    split_and!; by etrans.
Qed.

(** *** Where the errors come from *)

Lemma failed_from_step h a c c' :
  framed h c -> accounted c -> fetched_from h c -> failed_from h c ->
  step a c = Some c' -> failed_from h c'.
Proof.
  intros _ (_&HB&_) [HT _] HF Hs. unfold failed_from in *.
  rewrite Forall_forall in HB, HT.
  step_cases Hs; try done.
  - eapply Forall_impl; [done|]. intros err (r&earlier&icon&Hin&Hout).
    exists r, earlier, icon. split; [|done]. apply elem_of_app. by left.
  - apply Forall_app. split; [done|]. repeat constructor.
    pose proof (list_elem_of_lookup_2 _ _ _ Hi) as Ht.
    destruct (HT t Ht _ Hprog) as (earlier&Hout).
    destruct (HB t Ht) as [_ Hin].
    by exists (task_charmId t), earlier, icon.
  - by rewrite app_nil_r.
Qed.

Lemma failed_from_exec h b schedule c :
  http_FetchIcons h b schedule = Some c -> failed_from h c.
Proof.
  intros He.
  enough (framed h c /\ accounted c /\ fetched_from h c /\ failed_from h c)
    as (_&_&_&?) by done.
  revert He.
  apply (exec_invariant
           (fun c => framed h c /\ accounted c /\ fetched_from h c /\
                     failed_from h c)).
  - intros a c1 c2 (Hfr&Hac&Hff&Hfa) Hstep. split_and!.
    + by eapply framed_step.
    + by eapply accounted_step.
    + by eapply fetched_from_step.
    + by eapply failed_from_step.
  - split_and!; [apply framed_enter | apply accounted_enter | |].
    + split; [constructor|]. intros p v Hv. cbn in Hv.
      by rewrite lookup_empty in Hv.
    + constructor.
Qed.

Lemma fetchIcon_error_names h url cl earlier icon err :
  fetchIcon h url cl earlier = (icon, Some err) ->
  arg_string url ∈ error_args err.
Proof.
  pose proof (fetchIcon_cases h url cl earlier) as Hc.
  destruct (Get cl earlier url) as [resp|cause];
    [destruct (decide (StatusCode resp = http_StatusOK));
     [destruct (read_error (Body resp))|]|];
    rewrite Hc; intros ?; simplify_eq; cbn; apply list_elem_of_here.
Qed.


End Properties.

(** ** The properties at work on the small collaborator *)

Section Demo.

Import demo.

Local Abbreviation http_FetchIcons :=
  (HTTPFetcher_FetchIcons ParseReference Path serving).
Local Abbreviation link_FetchIcons :=
  (LinkFetcher_FetchIcons ParseReference Path linker).

Lemma stack_parses : parses ParseReference (Services stack) stack_refs.
Proof. repeat constructor. Qed.

Lemma escapeString_example :
  escapeString ("a<b&c>" +:+ dquote) = "a&lt;b&amp;c&gt;&#34;".
Proof. reflexivity. Qed.

(** With room for one task, the caller is held at the second new path
    until the first task has ended. *)
Lemma Do_blocks_example :
  http_FetchIcons (fetcher 1 serving) stack
    [caller_step; caller_step; caller_step] = None /\
  is_Some (http_FetchIcons (fetcher 1 serving) stack
    [caller_step; caller_step; task_fetch 0; task_finish 0; caller_step]).
Proof. split; [vm_compute; reflexivity | vm_compute; by eexists]. Qed.

Lemma FetchIcons_keys_witness :
  parses ParseReference (Services stack) stack_refs /\
  (exists ics, link_FetchIcons stack = (Some ics, None) /\
     dom ics = list_to_set (paths Path stack_refs)) /\
  http_FetchIcons (fetcher 2 serving) stack in_turn =
    Some (state (fetcher 2 serving) stack in_turn) /\
  exists ics,
    caller (state (fetcher 2 serving) stack in_turn) =
      Returned (Some ics) None /\
    dom ics = list_to_set (paths Path stack_refs).
Proof.
  pose proof (FetchIcons_keys ParseReference Path serving linker
                (fetcher 2 serving) stack stack_refs stack_parses)
    as ((ics&Hl&Hd&_)&_&Hh&_).
  split; [exact stack_parses|].
  split; [exists ics; split; [exact Hl | exact Hd]|].
  split; [vm_compute; reflexivity|].
  assert (exists m e, caller (state (fetcher 2 serving) stack in_turn) =
                      Returned m e) as (m&e&Hc)
    by (do 2 eexists; vm_compute; reflexivity).
  destruct (Hh in_turn (state (fetcher 2 serving) stack in_turn) m e)
    as (ics'&->&->&Hd'&_);
    [vm_compute; reflexivity | exact Hc | vm_compute; reflexivity |].
  exists ics'. split; [exact Hc | exact Hd'].
Defined.

(** C2 as stated fails: the call returns the parse error of the second
    charm after a task was submitted for the first and has made its
    request. *)
Lemma fail_fast_counterexample :
  http_FetchIcons (fetcher 2 serving) broken fetch_then_fail =
    Some (state (fetcher 2 serving) broken fetch_then_fail) /\
  caller (state (fetcher 2 serving) broken fetch_then_fail) =
    Returned None
      (Some (errgo_Notef malformed "cannot parse charm %q"
               [arg_string "a:b"])) /\
  submitted (state (fetcher 2 serving) broken fetch_then_fail) =
    [cs "mysql"] /\
  requested (state (fetcher 2 serving) broken fetch_then_fail) =
    ["https://charms.test/cs/mysql/icon.svg"].
Proof. split_and!; vm_compute; reflexivity. Qed.

Lemma parse_failure_aborts_witness :
  Services broken = [svc "mysql"] ++ svc "a:b" :: [svc "wordpress"] /\
  parses ParseReference [svc "mysql"] [cs "mysql"] /\
  ParseReference (Charm (svc "a:b")) = fail malformed /\
  link_FetchIcons broken =
    (None, Some (errgo_Notef malformed "cannot parse charm %q"
                   [arg_string (Charm (svc "a:b"))])) /\
  submitted (state (fetcher 2 serving) broken fetch_then_fail)
    = distinct Path [cs "mysql"].
Proof.
  assert (parses ParseReference [svc "mysql"] [cs "mysql"]) as Hp
    by (repeat constructor).
  pose proof (parse_failure_aborts ParseReference Path serving linker
                (fetcher 2 serving) broken [svc "mysql"] (svc "a:b")
                [svc "wordpress"] [cs "mysql"] malformed
                eq_refl Hp eq_refl) as (Hl&_&Hh).
  split_and!; [reflexivity | exact Hp | reflexivity | exact Hl |].
  destruct (Hh fetch_then_fail
              (state (fetcher 2 serving) broken fetch_then_fail))
    as (_&_&Hr); [vm_compute; reflexivity|].
  eapply Hr. vm_compute. reflexivity.
Defined.

Lemma task_failure_fails_call_witness :
  parses ParseReference (Services stack) stack_refs /\
  http_FetchIcons (fetcher 2 flaky) stack in_turn =
    Some (state (fetcher 2 flaky) stack in_turn) /\
  parallel.failed (run (state (fetcher 2 flaky) stack in_turn)) <> [] /\
  is_Some (icons (state (fetcher 2 flaky) stack in_turn) !! "mysql") /\
  exists err,
    caller (state (fetcher 2 flaky) stack in_turn) =
      Returned None (Some err) /\
    parallel.Wait (run (state (fetcher 2 flaky) stack in_turn)) =
      Some (Some err).
Proof.
  assert (exists m e, caller (state (fetcher 2 flaky) stack in_turn) =
                      Returned m e) as (m&e&Hc)
    by (do 2 eexists; vm_compute; reflexivity).
  assert (parallel.failed (run (state (fetcher 2 flaky) stack in_turn))
          <> []) as Hf by (vm_compute; discriminate).
  destruct (task_failure_fails_call ParseReference Path serving
              (fetcher 2 flaky) stack stack_refs in_turn
              (state (fetcher 2 flaky) stack in_turn) m e stack_parses)
    as (->&err&->&Hw&_); [vm_compute; reflexivity | exact Hc | exact Hf |].
  split_and!; [exact stack_parses | vm_compute; reflexivity | exact Hf | |].
  - vm_compute. by eexists.
  - exists err. split; [exact Hc | exact Hw].
Defined.

Lemma in_flight_capped_witness :
  0 < Concurrency (fetcher 1 serving) /\
  http_FetchIcons (fetcher 1 serving) stack one_fetching =
    Some (state (fetcher 1 serving) stack one_fetching) /\
  in_flight (state (fetcher 1 serving) stack one_fetching) = 1%nat /\
  Z.of_nat (in_flight (state (fetcher 1 serving) stack one_fetching))
    <= Concurrency (fetcher 1 serving).
Proof.
  split_and!; [reflexivity | vm_compute; reflexivity
              | vm_compute; reflexivity |].
  apply (in_flight_capped ParseReference Path serving (fetcher 1 serving)
           stack one_fetching); [vm_compute; reflexivity | reflexivity].
Defined.

Lemma default_concurrency_witness :
  Concurrency bare <= 0 /\
  http_FetchIcons bare stack in_turn = Some (state bare stack in_turn) /\
  concurrency (state bare stack in_turn) = 10 /\
  parallel.limit (run (state bare stack in_turn)) = 10.
Proof.
  split_and!; [cbn; lia | vm_compute; reflexivity | |].
  all: apply (default_concurrency ParseReference Path serving bare stack
                in_turn); [vm_compute; reflexivity | cbn; lia].
Defined.

Lemma receiver_unchanged_witness :
  http_FetchIcons bare stack in_turn = Some (state bare stack in_turn) /\
  receiver (state bare stack in_turn) = bare /\
  Client (receiver (state bare stack in_turn)) = Client bare.
Proof.
  split; [vm_compute; reflexivity|].
  destruct (receiver_unchanged ParseReference Path serving bare stack
              in_turn (state bare stack in_turn)) as (Hr&_&Hcl&_);
    [vm_compute; reflexivity|].
  split; [exact Hr | exact Hcl].
Defined.

(** C6 as stated fails: a reply 201 with a readable body is none of the
    failures the claim lists, and [fetchIcon] returns an error. *)
Lemma fetchIcon_2xx_counterexample :
  fetchIcon bare "u" created [] =
    (None, Some (errgo_Newf "cannot retrieve icon from %s: %s"
                   [arg_string "u"; arg_string "201 Created"])) /\
  ~ listed_failure created [] "u" /\
  ~ (is_Some (fetchIcon bare "u" created []).2 <->
     listed_failure created [] "u").
Proof.
  assert (~ listed_failure created [] "u") as Hn.
  { unfold listed_failure. cbn. intros [?|[? ?]]; discriminate. }
  split_and!; [reflexivity | exact Hn |].
  intros [Hi _]. apply Hn, Hi. cbn. by eexists.
Qed.

Lemma fetchIcon_fails_iff_witness :
  fetch_failure missing [] "u" /\
  is_Some (fetchIcon bare "u" missing []).2 /\
  (fetchIcon bare "u" missing []).1 = None.
Proof.
  assert (fetch_failure missing [] "u") as Hf
    by (unfold fetch_failure; cbn; left; discriminate).
  destruct (fetchIcon_fails_iff bare "u" missing []) as (Hiff&Hnone&_).
  split_and!; [exact Hf | by apply Hiff | by apply Hnone, Hiff].
Defined.

Lemma link_icon_content_witness :
  parses ParseReference (Services twice) [cs "mysql"; cs "mysql"] /\
  "mysql" ∈ paths Path [cs "mysql"; cs "mysql"] /\
  link_IconURL querying (cs "mysql") =
    "https://charms.test/icon?id=mysql&size=<96>&alt="
    +:+ String "034"%char EmptyString +:+ "icon"
    +:+ String "034"%char EmptyString /\
  exists ics,
    LinkFetcher_FetchIcons ParseReference Path querying twice =
      (Some ics, None) /\
    let q := String "034"%char EmptyString in
    let nl := String "010"%char EmptyString in
    let t := String "009"%char EmptyString in
    ics !! "mysql" =
      Some (list_byte_of_string
              (nl +:+ t +:+ t +:+ t +:+ t
               +:+ "<svg xmlns:xlink=" +:+ q
               +:+ "http://www.w3.org/1999/xlink" +:+ q +:+ ">"
               +:+ nl +:+ t +:+ t +:+ t +:+ t +:+ t
               +:+ "<image width=" +:+ q +:+ "96" +:+ q
               +:+ " height=" +:+ q +:+ "96" +:+ q
               +:+ " xlink:href=" +:+ q
               +:+ "https://charms.test/icon?id=mysql&amp;size=&lt;96&gt;"
               +:+ "&amp;alt=&#34;icon&#34;"
               +:+ q +:+ " />"
               +:+ nl +:+ t +:+ t +:+ t +:+ t +:+ "</svg>")) /\
    length (filter (fun e => e.1 = "mysql") (map_to_list ics)) = 1%nat.
Proof.
  assert (parses ParseReference (Services twice) [cs "mysql"; cs "mysql"])
    as Hp by repeat constructor.
  assert ("mysql" ∈ paths Path [cs "mysql"; cs "mysql"]) as Hin
    by apply list_elem_of_here.
  destruct (link_icon_content ParseReference Path querying twice
              [cs "mysql"; cs "mysql"] "mysql" Hp Hin)
    as (ics&r&Hl&Hr&_&_&Hi&Hone&_).
  assert (first_with Path "mysql" [cs "mysql"; cs "mysql"]
          = Some (cs "mysql")) as Hf by reflexivity.
  rewrite Hf in Hr. injection Hr as <-.
  split_and!; [exact Hp | exact Hin | reflexivity |].
  exists ics. split; [exact Hl|]. split; [exact Hi | exact Hone].
Defined.

Lemma empty_bundle_witness :
  Services (bundle []) = [] /\
  link_FetchIcons (bundle []) = (Some ∅, None) /\
  exists c, http_FetchIcons bare (bundle []) [caller_step] = Some c /\
    caller c = Returned (Some ∅) None.
Proof.
  destruct (empty_bundle ParseReference Path serving linker bare
              (bundle []) eq_refl) as (Hl&Hh&_).
  split_and!; [reflexivity | exact Hl | exact Hh].
Defined.

Lemma dedup_by_path_witness :
  Services stack =
    [] ++ svc "cs:mysql" :: [] ++ svc "local:mysql"
       :: [svc "wordpress"; svc "mysql"] /\
  Charm (svc "cs:mysql") <> Charm (svc "local:mysql") /\
  ParseReference (Charm (svc "cs:mysql")) = ok (cs "mysql") /\
  ParseReference (Charm (svc "local:mysql")) = ok (local "mysql") /\
  Path (cs "mysql") = Path (local "mysql") /\
  http_FetchIcons (fetcher 2 serving) stack in_turn =
    Some (state (fetcher 2 serving) stack in_turn) /\
  filter (fun r => Path r = Path (cs "mysql"))
    (submitted (state (fetcher 2 serving) stack in_turn)) =
    [default (cs "mysql") (first_with Path (Path (cs "mysql")) [])].
Proof.
  assert (Charm (svc "cs:mysql") <> Charm (svc "local:mysql")) as Hne
    by discriminate.
  assert (parses ParseReference [svc "wordpress"; svc "mysql"]
            [cs "wordpress"; cs "mysql"]) as Hpost
    by (repeat constructor).
  assert (parses ParseReference [] []) as Hnil by constructor.
  assert (exists m e, caller (state (fetcher 2 serving) stack in_turn) =
                      Returned m e) as (m&e&Hc)
    by (do 2 eexists; vm_compute; reflexivity).
  destruct (dedup_by_path ParseReference Path serving linker
              (fetcher 2 serving) stack [] (svc "cs:mysql") []
              (svc "local:mysql") [svc "wordpress"; svc "mysql"]
              [] (cs "mysql") [] (local "mysql")
              [cs "wordpress"; cs "mysql"]
              eq_refl Hne Hnil eq_refl Hnil eq_refl
              Hpost eq_refl) as (_&Hh).
  destruct (Hh in_turn (state (fetcher 2 serving) stack in_turn) m e)
    as (Hs&_); [vm_compute; reflexivity | exact Hc |].
  split_and!; [reflexivity | exact Hne | reflexivity | reflexivity
              | reflexivity | vm_compute; reflexivity | exact Hs].
Defined.

(** *** The further properties at work *)

Lemma link_repeat_ignored_witness :
  Services (bundle ["cs:mysql"; "wordpress"]) =
    [svc "cs:mysql"] ++ [svc "wordpress"] /\
  Services (bundle ["cs:mysql"; "local:mysql"; "wordpress"]) =
    [svc "cs:mysql"] ++ svc "local:mysql" :: [svc "wordpress"] /\
  Path (cs "mysql") = Path (local "mysql") /\
  link_FetchIcons (bundle ["cs:mysql"; "local:mysql"; "wordpress"]) =
    link_FetchIcons (bundle ["cs:mysql"; "wordpress"]).
Proof.
  split_and!; [reflexivity | reflexivity | reflexivity |].
  apply (link_repeat_ignored ParseReference Path linker
           (bundle ["cs:mysql"; "wordpress"])
           (bundle ["cs:mysql"; "local:mysql"; "wordpress"])
           [svc "cs:mysql"] (svc "cs:mysql") (svc "local:mysql")
           [svc "wordpress"] eq_refl eq_refl).
  - apply list_elem_of_here.
  - right. exists (cs "mysql"), (local "mysql").
    split_and!; reflexivity.
Defined.

Lemma plain_by_path refs : by_path Path (link_IconURL plain) refs.
Proof. intros r r' _ _ Heq. cbn. unfold Path in Heq. by rewrite Heq. Qed.

Lemma link_any_order_witness :
  Services stack ≡ₚ Services backwards /\
  parses ParseReference (Services stack) stack_refs /\
  by_path Path (link_IconURL plain) stack_refs /\
  exists ics,
    LinkFetcher_FetchIcons ParseReference Path plain stack =
      (Some ics, None) /\
    LinkFetcher_FetchIcons ParseReference Path plain backwards =
      (Some ics, None).
Proof.
  assert (Services stack ≡ₚ Services backwards) as Hperm
    by (symmetry; apply reverse_Permutation).
  destruct (link_any_order ParseReference Path plain stack backwards
              stack_refs Hperm stack_parses) as (ics&ics'&Hl&Hl'&_&Heq).
  split_and!; [exact Hperm | exact stack_parses | apply plain_by_path |].
  exists ics. split; [exact Hl|].
  rewrite (Heq (plain_by_path stack_refs)). exact Hl'.
Defined.

Lemma FetchIcons_terminates_witness :
  http_FetchIcons (fetcher 2 serving) stack in_turn =
    Some (state (fetcher 2 serving) stack in_turn) /\
  (length in_turn <= 3 * length (Services stack) + 1)%nat.
Proof.
  split; [vm_compute; reflexivity|].
  apply (FetchIcons_terminates ParseReference Path serving
           (fetcher 2 serving) stack in_turn
           (state (fetcher 2 serving) stack in_turn)).
  vm_compute; reflexivity.
Defined.

Lemma returned_map_final_witness :
  http_FetchIcons (fetcher 2 serving) stack in_turn =
    Some (state (fetcher 2 serving) stack in_turn) /\
  exists m,
    caller (state (fetcher 2 serving) stack in_turn) =
      Returned (Some m) None /\
    forall a,
      step ParseReference Path a (state (fetcher 2 serving) stack in_turn)
      = None.
Proof.
  split; [vm_compute; reflexivity|].
  assert (exists m e, caller (state (fetcher 2 serving) stack in_turn) =
                      Returned (Some m) e) as (m&e&Hc)
    by (do 2 eexists; vm_compute; reflexivity).
  destruct (returned_map_final ParseReference Path serving
              (fetcher 2 serving) stack in_turn
              (state (fetcher 2 serving) stack in_turn) m e)
    as (_&->&_&Hno); [vm_compute; reflexivity | exact Hc |].
  exists m. split; [exact Hc | exact Hno].
Defined.

Lemma requests_bounded_witness :
  http_FetchIcons (fetcher 2 serving) broken fetch_then_fail =
    Some (state (fetcher 2 serving) broken fetch_then_fail) /\
  NoDup (paths Path
           (fetched (state (fetcher 2 serving) broken fetch_then_fail))) /\
  (length (requested (state (fetcher 2 serving) broken fetch_then_fail))
   <= length (Services broken))%nat.
Proof.
  split; [vm_compute; reflexivity|].
  destruct (requests_bounded ParseReference Path serving
              (fetcher 2 serving) broken fetch_then_fail
              (state (fetcher 2 serving) broken fetch_then_fail))
    as (Hnd&Hlen&_); [vm_compute; reflexivity|].
  split; [exact Hnd | exact Hlen].
Defined.

Lemma http_map_or_error_witness :
  http_FetchIcons (fetcher 2 serving) broken fetch_then_fail =
    Some (state (fetcher 2 serving) broken fetch_then_fail) /\
  exists m e,
    caller (state (fetcher 2 serving) broken fetch_then_fail) =
      Returned m e /\
    (m = None <-> is_Some e).
Proof.
  split; [vm_compute; reflexivity|].
  assert (exists m e,
            caller (state (fetcher 2 serving) broken fetch_then_fail) =
              Returned m e) as (m&e&Hc)
    by (do 2 eexists; vm_compute; reflexivity).
  destruct (http_map_or_error ParseReference Path serving
              (fetcher 2 serving) broken fetch_then_fail
              (state (fetcher 2 serving) broken fetch_then_fail) m e)
    as (Hiff&_); [vm_compute; reflexivity | exact Hc |].
  exists m, e. split; [exact Hc | exact Hiff].
Defined.


Lemma serving_stateless : stateless serving.
Proof. intros ? ? ?. reflexivity. Qed.

Lemma stateless_schedule_independent_witness :
  stateless (local_client serving (fetcher 2 serving)) /\
  http_FetchIcons (fetcher 2 serving) stack in_turn =
    Some (state (fetcher 2 serving) stack in_turn) /\
  http_FetchIcons (fetcher 2 serving) stack crossed =
    Some (state (fetcher 2 serving) stack crossed) /\
  exists m,
    caller (state (fetcher 2 serving) stack in_turn) =
      Returned (Some m) None /\
    caller (state (fetcher 2 serving) stack crossed) =
      Returned (Some m) None.
Proof.
  split; [exact serving_stateless|].
  split; [vm_compute; reflexivity|]. split; [vm_compute; reflexivity|].
  assert (exists m, caller (state (fetcher 2 serving) stack in_turn) =
                    Returned (Some m) None) as (m&Hc)
    by (eexists; vm_compute; reflexivity).
  assert (exists m2 e2, caller (state (fetcher 2 serving) stack crossed) =
                        Returned m2 e2) as (m2&e2&Hc2)
    by (do 2 eexists; vm_compute; reflexivity).
  destruct (stateless_schedule_independent ParseReference Path serving
              (fetcher 2 serving) stack stack_refs
              in_turn (state (fetcher 2 serving) stack in_turn) m None
              crossed (state (fetcher 2 serving) stack crossed) m2 e2
              serving_stateless stack_parses) as (->&->);
    [vm_compute; reflexivity | exact Hc | vm_compute; reflexivity
    | exact Hc2 |].
  exists m. split; [exact Hc | exact Hc2].
Defined.

Lemma concurrency_one_in_order_witness :
  Concurrency (fetcher 1 serving) = 1 /\
  http_FetchIcons (fetcher 1 serving) stack one_fetching =
    Some (state (fetcher 1 serving) stack one_fetching) /\
  fetched (state (fetcher 1 serving) stack one_fetching)
    `prefix_of` submitted (state (fetcher 1 serving) stack one_fetching).
Proof.
  split; [reflexivity|]. split; [vm_compute; reflexivity|].
  apply (concurrency_one_in_order ParseReference Path serving
           (fetcher 1 serving) stack one_fetching
           (state (fetcher 1 serving) stack one_fetching) eq_refl).
  vm_compute; reflexivity.
Defined.

Lemma FetchIcons_grows_witness :
  http_FetchIcons (fetcher 2 serving) stack first_done =
    Some (state (fetcher 2 serving) stack first_done) /\
  http_FetchIcons (fetcher 2 serving) stack (first_done ++ then_second) =
    Some (state (fetcher 2 serving) stack (first_done ++ then_second)) /\
  icons (state (fetcher 2 serving) stack first_done)
    ⊆ icons (state (fetcher 2 serving) stack (first_done ++ then_second)).
Proof.
  split; [vm_compute; reflexivity|]. split; [vm_compute; reflexivity|].
  apply (FetchIcons_grows ParseReference Path serving (fetcher 2 serving)
           stack first_done then_second
           (state (fetcher 2 serving) stack first_done)
           (state (fetcher 2 serving) stack (first_done ++ then_second)));
    vm_compute; reflexivity.
Defined.


End Demo.
